(** * analyze_dumpbinary_logs: a verified model

    A shallow embedding of [android/native/analyze_dumpbinary_logs.py]:
    the extractor [parse_log], the aggregator [stats] with its helper
    [percentile], the segmenter [segment_avgs] and the driver [main].

    Numbers.  Python integers are [Z].  A Python [float] is modelled by
    the exact rational it denotes ([Q]): true division [/] is the
    rational quotient, [int(x)] truncates towards zero, and Python's
    numeric [==] is [Qeq].  Rounding of IEEE doubles is not part of this
    model: the theorems are about the script computed in exact
    arithmetic, which is what a double computes as long as no operation
    rounds.

    Exceptions.  A function that may raise returns a [res]: [Ret v] for
    a returned value, [Exn e] for a raised exception. *)

From Stdlib Require Import String Ascii ZArith QArith Qround Bool Lia Lqa List.
From Stdlib Require Import Sorting.Mergesort Sorting.Sorted Sorting.Permutation Orders.
From Stdlib Require Import NArith.
From Equations Require Import Equations.
Import ListNotations.

Local Open Scope Z_scope.

(* ================================================================== *)
(** ** Python run-time support *)
(* ================================================================== *)

Inductive exn : Type :=
| IndexError
| ZeroDivisionError
| ValueError
| TypeError
| OSError.

Inductive res (A : Type) : Type :=
| Ret (a : A)
| Exn (e : exn).

Arguments Ret {A} a.
Arguments Exn {A} e.

Definition bind {A B : Type} (m : res A) (f : A -> res B) : res B :=
  match m with
  | Ret a => f a
  | Exn e => Exn e
  end.

Notation "x <- m ;; k" := (bind m (fun x => k))
  (at level 61, m at next level, right associativity).

(** [len(l)] *)
Definition len {A : Type} (l : list A) : Z := Z.of_nat (List.length l).

(** [int(x)] on a float: truncation towards zero. *)
Definition py_int (x : Q) : Z :=
  if Qle_bool 0 x then Qfloor x else Qceiling x.

(** [a / b] on numbers: true division, raising on a zero divisor. *)
Definition truediv (a b : Q) : res Q :=
  if Qeq_bool b 0 then Exn ZeroDivisionError else Ret (a / b)%Q.

(** [l[i]]: negative indices count from the end; out of range raises. *)
Definition getitem {A : Type} (l : list A) (i : Z) : res A :=
  let j := if i <? 0 then i + len l else i in
  if (j <? 0) || (len l <=? j) then Exn IndexError
  else match nth_error l (Z.to_nat j) with
       | Some a => Ret a
       | None => Exn IndexError
       end.

(** The clamping of one bound of a slice [l[a:b]]. *)
Definition slice_bound (n i : Z) : Z :=
  if i <? 0 then Z.max (i + n) 0 else Z.min i n.

(** [l[a:b]] *)
Definition slice {A : Type} (l : list A) (a b : Z) : list A :=
  let a' := slice_bound (len l) a in
  let b' := slice_bound (len l) b in
  firstn (Z.to_nat (b' - a')) (skipn (Z.to_nat a') l).

(** [range(n)] *)
Definition range (n : Z) : list Z :=
  map Z.of_nat (seq 0 (Z.to_nat n)).

(** [sum(l)] over integers, and over booleans counted as 0 and 1. *)
Definition sum (l : list Z) : Z := fold_left Z.add l 0.

Definition bool_int (b : bool) : Z := if b then 1 else 0.

(** [min(l)] and [max(l)]; both raise [ValueError] on an empty list. *)
Definition py_min (l : list Z) : res Z :=
  match l with
  | [] => Exn ValueError
  | x :: xs => Ret (fold_left Z.min xs x)
  end.

Definition py_max (l : list Z) : res Z :=
  match l with
  | [] => Exn ValueError
  | x :: xs => Ret (fold_left Z.max xs x)
  end.

(** [sorted(l)] on integers. *)
Module ZOrder <: TotalLeBool.
Definition t := Z.
Definition leb := Z.leb.
Lemma leb_total : forall x y, leb x y = true \/ leb y x = true.
Proof.
  intros x y. unfold leb.
  destruct (Z.leb_spec x y); [now left | right; apply Z.leb_le; lia].
Qed.
End ZOrder.

Module ZSort := Sort ZOrder.

Definition sorted (l : list Z) : list Z := ZSort.sort l.

(* ================================================================== *)
(** ** The data model *)
(* ================================================================== *)

(** One parsed occurrence: [(ms, is_fail)]. *)
Definition event : Type := Z * bool.

Definition series : Type := list event.

(** The dictionary returned by [stats], one field per key. *)
Record SummaryStats : Type := mkStats {
  s_name : string;
  s_n : Z;
  s_min : Z;
  s_max : Z;
  s_mean : Q;
  s_p50 : Q;
  s_p90 : Q;
  s_p95 : Q;
  s_p99 : Q;
  s_fails : Z;
  s_fail_rate : Q
}.

(** The 7-tuple appended by [segment_avgs], one field per position. *)
Record Segment : Type := mkSegment {
  seg_index : Z;          (* seg[0] *)
  seg_start : Z;          (* seg[1]: 1-based first ordinal *)
  seg_end : Z;            (* seg[2]: 1-based last ordinal *)
  seg_count : Z;          (* seg[3] *)
  seg_avg : Q;            (* seg[4] *)
  seg_fail_count : Z;     (* seg[5] *)
  seg_fail_rate : Q       (* seg[6] *)
}.

(* ================================================================== *)
(** ** Text and the regular expression engine *)
(* ================================================================== *)

(** A decoded text is a sequence of Unicode code points. *)
Definition char : Type := N.

Definition text : Type := list char.

(** The code points of a literal of the source. *)
Definition lit (s : string) : text :=
  map N_of_ascii (list_ascii_of_string s).

(** The Unicode tables the [re] module and [int()] consult: which code
    points are whitespace ([\s]), and the value of a decimal digit
    ([\d] matches the code points that have one).  They belong to the
    interpreter, not to the repository, and are a parameter here. *)
Record unicode : Type := mkUnicode {
  isspace : char -> bool;
  decimal : char -> option Z
}.

(** The two tables on ASCII: tab, line feed, vertical tab, form feed,
    carriage return, the separators 28..31 and the space are
    whitespace; '0'..'9' are the digits. *)
Definition ascii_tables : unicode :=
  mkUnicode
    (fun c => ((9 <=? c) && (c <=? 13) || (28 <=? c) && (c <=? 32))%N)
    (fun c => if ((48 <=? c) && (c <=? 57))%N
              then Some (Z.of_N c - 48) else None).

Inductive cclass : Type :=
| Space      (* \s *)
| Digit.     (* \d *)

Definition in_class (U : unicode) (c : cclass) (x : char) : bool :=
  match c with
  | Space => isspace U x
  | Digit => match decimal U x with Some _ => true | None => false end
  end.

(** The fragment of regular expressions the pattern is written in. *)
Inductive regex : Type :=
| Lit (l : text)                 (* literal characters *)
| Plus (c : cclass)              (* c+, greedy *)
| Cat (r1 r2 : regex)            (* r1 r2 *)
| Group (g : nat) (r : regex)    (* (r), capturing group number g *)
| Opt (r : regex).               (* r?, greedy *)

(** What the groups of a match captured; [None] for a group that did
    not take part. *)
Definition captures : Type := nat -> option text.

Definition no_captures : captures := fun _ => None.

Definition set_capture (g : nat) (v : text) (cs : captures) : captures :=
  fun h => if Nat.eqb h g then Some v else cs h.

Fixpoint strip_prefix (l s : text) : option text :=
  match l, s with
  | [], _ => Some s
  | a :: l', b :: s' => if N.eqb a b then strip_prefix l' s' else None
  | _ :: _, [] => None
  end.

(** Zero or more characters of a class, the longest run first, giving
    one back at a time while the continuation fails. *)
Fixpoint many {R : Type} (U : unicode) (c : cclass) (s : text)
    (k : text -> option R) : option R :=
  match s with
  | x :: s' =>
      if in_class U c x
      then match many U c s' k with
           | Some r => Some r
           | None => k s
           end
      else k s
  | [] => k s
  end.

(** The backtracking matcher: [k] is the rest of the pattern. *)
Fixpoint bt {R : Type} (U : unicode) (r : regex) (s : text) (cs : captures)
    (k : text -> captures -> option R) : option R :=
  match r with
  | Lit l =>
      match strip_prefix l s with
      | Some s' => k s' cs
      | None => None
      end
  | Plus c =>
      match s with
      | x :: s' =>
          if in_class U c x then many U c s' (fun s'' => k s'' cs) else None
      | [] => None
      end
  | Cat r1 r2 => bt U r1 s cs (fun s' cs' => bt U r2 s' cs' k)
  | Group g r0 =>
      bt U r0 s cs
         (fun s' cs' =>
            k s' (set_capture g (firstn (List.length s - List.length s') s) cs'))
  | Opt r0 =>
      match bt U r0 s cs k with
      | Some x => Some x
      | None => k s cs
      end
  end.

(** The end of the pattern: the match is complete. *)
Definition accept (s' : text) (cs : captures) : option (captures * text) :=
  Some (cs, s').

(** A match at the start of [s]: the captures and the text after it. *)
Definition match_at (U : unicode) (r : regex) (s : text)
  : option (captures * text) :=
  bt U r s no_captures accept.

(** The first match at or after the start of [s]. *)
Fixpoint search (U : unicode) (r : regex) (s : text)
  : option (captures * text) :=
  match match_at U r s with
  | Some m => Some m
  | None =>
      match s with
      | [] => None
      | _ :: s' => search U r s'
      end
  end.

Definition inspect {A : Type} (a : A) : {b : A | a = b} :=
  exist _ a eq_refl.

(** [finditer]: the successive non-overlapping matches, each search
    resuming where the previous match ended. *)
Equations finditer (U : unicode) (r : regex) (s : text) : list captures
    by wf (List.length s) lt :=
  finditer U r s with inspect (search U r s) := {
    | exist _ None _ := [];
    | exist _ (Some (cs, rest)) _ with lt_dec (List.length rest) (List.length s) := {
        | left _ := cs :: finditer U r rest;
        | right _ := [cs] } }.

(* ================================================================== *)
(** ** parse_log *)
(* ================================================================== *)

(** The compiled pattern
    [\[Fastbot\]:\s+// dumpBinary:\s+(\d+)\s+ms(\s+\(buffer full or fail\))?] *)
Definition pat : regex :=
  Cat (Lit (lit "[Fastbot]:"))
 (Cat (Plus Space)
 (Cat (Lit (lit "// dumpBinary:"))
 (Cat (Plus Space)
 (Cat (Group 1 (Plus Digit))
 (Cat (Plus Space)
 (Cat (Lit (lit "ms"))
      (Opt (Group 2 (Cat (Plus Space)
                         (Lit (lit "(buffer full or fail)")))))))))))%string.

(** [int(s)] on a string of digits.  The interpreter's configurable
    limit on the number of digits it converts is not modelled. *)
Fixpoint int_digits (U : unicode) (s : text) (acc : Z) : res Z :=
  match s with
  | [] => Ret acc
  | x :: s' =>
      match decimal U x with
      | Some v => int_digits U s' (10 * acc + v)
      | None => Exn ValueError
      end
  end.

Definition int_str (U : unicode) (s : option text) : res Z :=
  match s with
  | None => Exn TypeError
  | Some [] => Exn ValueError
  | Some ds => int_digits U ds 0
  end.

Definition is_not_None {A : Type} (o : option A) : bool :=
  match o with
  | Some _ => true
  | None => false
  end.

(** The loop over the matches, [data] threaded through. *)
Fixpoint parse_loop (U : unicode) (ms_ : list captures) (data : series)
  : res series :=
  match ms_ with
  | [] => Ret data
  | m :: rest =>
      ms <- int_str U (m 1%nat) ;;
      let is_fail := is_not_None (m 2%nat) in
      parse_loop U rest (data ++ [(ms, is_fail)])
  end.

(** [parse_log], on the decoded text of the file. *)
Definition parse_log (U : unicode) (t : text) : res series :=
  parse_loop U (finditer U pat t) [].

(* ================================================================== *)
(** ** percentile *)
(* ================================================================== *)

Definition percentile (sorted_arr : list Z) (p : Z) : res Q :=
  match sorted_arr with
  | [] => Ret 0%Q
  | _ =>
      let k := (inject_Z ((len sorted_arr - 1) * p) / 100)%Q in
      let f := py_int k in
      let c := if f + 1 <? len sorted_arr then f + 1 else f in
      if c >? f then
        sf <- getitem sorted_arr f ;;
        sc <- getitem sorted_arr c ;;
        Ret (inject_Z sf + (k - inject_Z f) * inject_Z (sc - sf))%Q
      else
        sf <- getitem sorted_arr f ;;
        Ret (inject_Z sf)
  end.

(* ================================================================== *)
(** ** stats *)
(* ================================================================== *)

Definition stats (data : series) (name : string) : res (option SummaryStats) :=
  match data with
  | [] => Ret None
  | _ =>
      let ms_list := map fst data in
      let fails := sum (map (fun _ => 1) (filter snd data)) in
      let n := len ms_list in
      let s := sorted ms_list in
      mn <- py_min ms_list ;;
      mx <- py_max ms_list ;;
      mean <- truediv (inject_Z (sum ms_list)) (inject_Z n) ;;
      p50 <- percentile s 50 ;;
      p90 <- percentile s 90 ;;
      p95 <- percentile s 95 ;;
      p99 <- percentile s 99 ;;
      fail_rate <- (if n =? 0 then Ret 0%Q
                    else truediv (100 * inject_Z fails) (inject_Z n)) ;;
      Ret (Some (mkStats name n mn mx mean p50 p90 p95 p99 fails fail_rate))
  end.

(* ================================================================== *)
(** ** segment_avgs *)
(* ================================================================== *)

(** [start = int(i * seg_size)] *)
Definition start_of (seg_size : Q) (i : Z) : Z :=
  py_int (inject_Z i * seg_size).

(** [end = int((i + 1) * seg_size) if i < num_segments - 1 else n] *)
Definition end_of (n num_segments : Z) (seg_size : Q) (i : Z) : Z :=
  if i <? num_segments - 1 then py_int (inject_Z (i + 1) * seg_size) else n.

(** The body of the [for] loop, for one [i]: [None] is the [continue]. *)
Definition segment_at (ms_list : list Z) (fail_list : list bool)
    (n num_segments : Z) (seg_size : Q) (i : Z) : res (option Segment) :=
  let start := start_of seg_size i in
  let end_ := end_of n num_segments seg_size i in
  if start >=? end_ then Ret None
  else
    let seg_ms := slice ms_list start end_ in
    let seg_fail := slice fail_list start end_ in
    avg_ms <- truediv (inject_Z (sum seg_ms)) (inject_Z (len seg_ms)) ;;
    let fail_count := sum (map bool_int seg_fail) in
    rate <- truediv (100 * inject_Z fail_count) (inject_Z (len seg_ms)) ;;
    Ret (Some (mkSegment (i + 1) (start + 1) end_ (len seg_ms)
                         avg_ms fail_count rate)).

(** The loop: [result] is threaded through the iterations. *)
Fixpoint segment_loop (body : Z -> res (option Segment)) (idxs : list Z)
    (result : list Segment) : res (list Segment) :=
  match idxs with
  | [] => Ret result
  | i :: rest =>
      o <- body i ;;
      match o with
      | None => segment_loop body rest result
      | Some seg => segment_loop body rest (result ++ [seg])
      end
  end.

Definition segment_avgs (data : series) (num_segments : Z) : res (list Segment) :=
  match data with
  | [] => Ret []
  | _ =>
      let n := len data in
      let ms_list := map fst data in
      let fail_list := map snd data in
      seg_size <- truediv (inject_Z n) (inject_Z num_segments) ;;
      segment_loop (segment_at ms_list fail_list n num_segments seg_size)
                   (range num_segments) []
  end.

(* ================================================================== *)
(** ** main *)
(* ================================================================== *)

(** What a path names when the script runs. *)
Inductive file : Type :=
| Missing                  (* nothing there: [exists()] is false *)
| Unreadable               (* exists, but [read_text] raises *)
| Readable (t : text).     (* a file, with its decoded text *)

Definition world : Type := string -> file.

(** A printed line.  The numbers a line shows are kept as numbers: the
    rendering of floats by format specifications is not modelled. *)
Inductive line : Type :=
| Message (s : string)                     (* a fixed text *)
| Rule (c : string) (n : Z)                (* c * n *)
| Title
| Heading (k : Z)                          (* the header of part k *)
| Blank
| SeriesName (name : string)
| StatN (n : Z)
| StatMinMax (mn mx : Z)
| StatMean (mean : Q)
| StatPercentiles (p50 p90 p95 p99 : Q)
| StatFails (fails : Z) (fail_rate : Q)
| CmpN (n1 n2 diff : Z)
| CmpMean (mean1 mean2 change : Q)
| CmpMax (mx1 mx2 : Z)
| CmpP99 (p1 p2 : Q)
| CmpFailRate (r1 r2 : Q)
| SegmentLine (seg : Segment)
| TrendLine (cells : list (Z * Q))
| Traceback (e : exn).                     (* the interpreter's report *)

Inductive channel : Type :=
| stdout
| stderr.

(** The observable steps of a run, in order. *)
Inductive effect : Type :=
| EvExists (path : string)
| EvReadText (path : string)
| EvPrint (ch : channel) (l : line).

(** How a computation of the driver ends: with a value, by
    [sys.exit(code)], or by an exception nobody catches. *)
Inductive outcome (A : Type) : Type :=
| Done (a : A)
| SysExit (code : Z)
| Uncaught (e : exn).

Arguments Done {A} a.
Arguments SysExit {A} code.
Arguments Uncaught {A} e.

(** Driver computations read the world and extend the trace. *)
Definition io (A : Type) : Type :=
  world -> list effect -> list effect * outcome A.

Definition io_ret {A : Type} (a : A) : io A :=
  fun _ tr => (tr, Done a).

Definition io_bind {A B : Type} (m : io A) (f : A -> io B) : io B :=
  fun w tr =>
    match m w tr with
    | (tr', Done a) => f a w tr'
    | (tr', SysExit c) => (tr', SysExit c)
    | (tr', Uncaught e) => (tr', Uncaught e)
    end.

Notation "x <~ m ;; k" := (io_bind m (fun x => k))
  (at level 61, m at next level, right associativity).
Notation "m ;;; k" := (io_bind m (fun _ => k))
  (at level 61, right associativity).

Definition emit (e : effect) : io unit :=
  fun _ tr => (tr ++ [e], Done tt).

Definition print (ch : channel) (l : line) : io unit :=
  emit (EvPrint ch l).

Definition sys_exit {A : Type} (code : Z) : io A :=
  fun _ tr => (tr, SysExit code).

Definition lift {A : Type} (m : res A) : io A :=
  fun _ tr =>
    match m with
    | Ret a => (tr, Done a)
    | Exn e => (tr, Uncaught e)
    end.

(** [path.exists()] *)
Definition path_exists (path : string) : io bool :=
  fun w tr =>
    (tr ++ [EvExists path],
     Done match w path with Missing => false | _ => true end).

(** [path.read_text(errors='replace')] *)
Definition read_text (path : string) : io text :=
  fun w tr =>
    (tr ++ [EvReadText path],
     match w path with
     | Readable t => Done t
     | _ => Uncaught OSError
     end).

(** [for x in xs: body(x)] *)
Fixpoint for_each {A : Type} (xs : list A) (body : A -> io unit) : io unit :=
  match xs with
  | [] => io_ret tt
  | x :: xs' => body x ;;; for_each xs' body
  end.

Definition print_stats (o : option SummaryStats) : io unit :=
  match o with
  | None => io_ret tt
  | Some s =>
      print stdout (SeriesName (s_name s)) ;;;
      print stdout (StatN (s_n s)) ;;;
      print stdout (StatMinMax (s_min s) (s_max s)) ;;;
      print stdout (StatMean (s_mean s)) ;;;
      print stdout (StatPercentiles (s_p50 s) (s_p90 s) (s_p95 s) (s_p99 s)) ;;;
      print stdout (StatFails (s_fails s) (s_fail_rate s)) ;;;
      print stdout Blank
  end.

Definition print_comparison (o1 o2 : option SummaryStats) : io unit :=
  match o1, o2 with
  | Some s1, Some s2 =>
      print stdout (CmpN (s_n s1) (s_n s2) (s_n s2 - s_n s1)) ;;;
      ratio <~ lift (truediv (s_mean s2 - s_mean s1) (s_mean s1)) ;;
      print stdout (CmpMean (s_mean s1) (s_mean s2) (ratio * 100)) ;;;
      print stdout (CmpMax (s_max s1) (s_max s2)) ;;;
      print stdout (CmpP99 (s_p99 s1) (s_p99 s2)) ;;;
      print stdout (CmpFailRate (s_fail_rate s1) (s_fail_rate s2))
  | _, _ => io_ret tt
  end.

Definition print_segments (nd : string * series) : io unit :=
  print stdout (SeriesName (fst nd)) ;;;
  segs <~ lift (segment_avgs (snd nd) 4) ;;
  for_each segs (fun seg => print stdout (SegmentLine seg)) ;;;
  print stdout Blank.

Definition print_trend (nd : string * series) : io unit :=
  print stdout (SeriesName (fst nd)) ;;;
  segs <~ lift (segment_avgs (snd nd) 10) ;;
  print stdout
    (TrendLine
       (flat_map (fun i => match nth_error segs (Z.to_nat (i - 1)) with
                           | Some seg => [(i, seg_avg seg)]
                           | None => []
                           end)
                 (filter (fun i => i <=? len segs)
                         (map (fun i => i + 1) (range 10))))) ;;;
  print stdout Blank.

(** The names the two series are reported under. *)
Definition name1 : string := "fastbot1 (修复前)".
Definition name2 : string := "fastbot2 (修复后)".

Definition main (U : unicode) : io Z :=
  let log1 := "fastbot1.log"%string in
  let log2 := "fastbot2.log"%string in
  e1 <~ path_exists log1 ;;
  if negb e1 then
    print stderr (Message "Missing fastbot1.log") ;;; sys_exit 1
  else
  e2 <~ path_exists log2 ;;
  if negb e2 then
    print stderr (Message "Missing fastbot2.log") ;;; sys_exit 2
  else
  t1 <~ read_text log1 ;;
  d1 <~ lift (parse_log U t1) ;;
  t2 <~ read_text log2 ;;
  d2 <~ lift (parse_log U t2) ;;
  s1 <~ lift (stats d1 name1) ;;
  s2 <~ lift (stats d2 name2) ;;
  print stdout (Rule "=" 60) ;;;
  print stdout Title ;;;
  print stdout (Rule "=" 60) ;;;
  print stdout Blank ;;;
  print stdout (Heading 1) ;;;
  print stdout (Rule "-" 60) ;;;
  for_each [s1; s2] print_stats ;;;
  print stdout Blank ;;;
  print stdout (Heading 2) ;;;
  print stdout (Rule "-" 60) ;;;
  print_comparison s1 s2 ;;;
  print stdout Blank ;;;
  print stdout (Heading 3) ;;;
  print stdout (Rule "-" 60) ;;;
  for_each [(name1, d1); (name2, d2)] print_segments ;;;
  print stdout (Heading 4) ;;;
  print stdout (Rule "-" 60) ;;;
  for_each [(name1, d1); (name2, d2)] print_trend ;;;
  io_ret 0.

(** [sys.exit(main())] from an empty trace: the trace of the run and
    the exit status of the process.  An uncaught exception ends the
    interpreter with a traceback on the error channel and status 1. *)
Definition run (U : unicode) (w : world) : list effect * Z :=
  match main U w [] with
  | (tr, Done code) => (tr, code)
  | (tr, SysExit code) => (tr, code)
  | (tr, Uncaught e) => (tr ++ [EvPrint stderr (Traceback e)], 1)
  end.

(** The world in which the two logs are as given and nothing else
    exists. *)
Definition world_of (f1 f2 : file) : world :=
  fun path =>
    if String.eqb path "fastbot1.log" then f1
    else if String.eqb path "fastbot2.log" then f2
    else Missing.

(** The run reached the end of [main]. *)
Definition completes (U : unicode) (w : world) : bool :=
  match main U w [] with
  | (_, Done _) => true
  | _ => false
  end.

(* ================================================================== *)
(** ** Occurrences of the event pattern, declaratively *)
(* ================================================================== *)

(** A non-empty run of whitespace, and a non-empty run of digits. *)
Definition spaces (U : unicode) (ws : text) : Prop :=
  ws <> [] /\ Forall (fun x => in_class U Space x = true) ws.

Definition digits (U : unicode) (ds : text) : Prop :=
  ds <> [] /\ Forall (fun x => in_class U Digit x = true) ds.

(** The number a run of digits denotes. *)
Fixpoint digits_value_from (U : unicode) (ds : text) (acc : Z) : Z :=
  match ds with
  | [] => acc
  | x :: ds' =>
      digits_value_from U ds'
        (10 * acc + match decimal U x with Some v => v | None => 0 end)
  end.

Definition digits_value (U : unicode) (ds : text) : Z :=
  digits_value_from U ds 0.

(** [occurrence U tag m d f]: the text [m] is the tag, a colon,
    whitespace, [// dumpBinary:], whitespace, digits denoting [d],
    whitespace and [ms]; with [f] true it goes on with whitespace and
    the marker [(buffer full or fail)]. *)
Inductive occurrence (U : unicode) (tag : text) : text -> Z -> bool -> Prop :=
| occ_plain (ws1 ws2 ds ws3 : text) :
    spaces U ws1 -> spaces U ws2 -> digits U ds -> spaces U ws3 ->
    occurrence U tag
      (tag ++ lit ":" ++ ws1 ++ lit "// dumpBinary:" ++ ws2 ++ ds ++ ws3
           ++ lit "ms")
      (digits_value U ds) false
| occ_failed (ws1 ws2 ds ws3 ws4 : text) :
    spaces U ws1 -> spaces U ws2 -> digits U ds -> spaces U ws3 ->
    spaces U ws4 ->
    occurrence U tag
      (tag ++ lit ":" ++ ws1 ++ lit "// dumpBinary:" ++ ws2 ++ ds ++ ws3
           ++ lit "ms" ++ ws4 ++ lit "(buffer full or fail)")
      (digits_value U ds) true.

(** The tag the pattern of the source spells out. *)
Definition fastbot_tag : text := lit "[Fastbot]".

Definition fastbot_occurrence (U : unicode) : text -> Z -> bool -> Prop :=
  occurrence U fastbot_tag.

(** The claim's reading of the pattern: any tag inside brackets. *)
Definition bracketed_occurrence (U : unicode) (m : text) (d : Z) (f : bool)
  : Prop :=
  exists name, occurrence U (lit "[" ++ name ++ lit "]") m d f.

(** [extraction occ t evs]: reading [t] from left to right, [evs] holds
    one event for each occurrence, taken where the first one starts,
    as long as it can be, and resuming after it; a position where no
    occurrence starts is passed over. *)
Inductive extraction (occ : text -> Z -> bool -> Prop)
  : text -> series -> Prop :=
| ext_end : extraction occ [] []
| ext_skip (c : char) (t : text) (evs : series) :
    (forall m rest d f, c :: t = m ++ rest -> ~ occ m d f) ->
    extraction occ t evs ->
    extraction occ (c :: t) evs
| ext_hit (m rest : text) (d : Z) (f : bool) (evs : series) :
    occ m d f ->
    (forall m' rest' d' f',
        m ++ rest = m' ++ rest' -> occ m' d' f' ->
        (List.length m' <= List.length m)%nat) ->
    extraction occ rest evs ->
    extraction occ (m ++ rest) ((d, f) :: evs).

(** What the proofs use of the Unicode tables: no whitespace character
    is a decimal digit, and '/', 'm' and '(' are not whitespace. *)
Definition sound_tables (U : unicode) : Prop :=
  (forall x, isspace U x = true -> decimal U x = None)
  /\ isspace U 47%N = false
  /\ isspace U 109%N = false
  /\ isspace U 40%N = false.

(* ================================================================== *)
(** ** The pattern read without backtracking *)
(* ================================================================== *)

Fixpoint take_class (U : unicode) (c : cclass) (s : text) : text :=
  match s with
  | x :: s' => if in_class U c x then x :: take_class U c s' else []
  | [] => []
  end.

Fixpoint drop_class (U : unicode) (c : cclass) (s : text) : text :=
  match s with
  | x :: s' => if in_class U c x then drop_class U c s' else s
  | [] => []
  end.

(** The longest run of class [c] at the start of [s], when non-empty,
    and what follows it. *)
Definition run_of (U : unicode) (c : cclass) (s : text) : option (text * text) :=
  match s with
  | x :: s' =>
      if in_class U c x
      then Some (x :: take_class U c s', drop_class U c s')
      else None
  | [] => None
  end.

(** [s] does not start with a character of class [c]. *)
Definition starts_outside (U : unicode) (c : cclass) (s : text) : Prop :=
  match s with
  | x :: _ => in_class U c x = false
  | [] => True
  end.

(** The tails of the pattern, from the end. *)
Definition p_tail : regex :=
  Opt (Group 2 (Cat (Plus Space) (Lit (lit "(buffer full or fail)")))).
Definition p_ms : regex := Cat (Lit (lit "ms")) p_tail.
Definition p_sp3 : regex := Cat (Plus Space) p_ms.
Definition p_num : regex := Cat (Group 1 (Plus Digit)) p_sp3.
Definition p_sp2 : regex := Cat (Plus Space) p_num.
Definition p_dump : regex := Cat (Lit (lit "// dumpBinary:")) p_sp2.
Definition p_sp1 : regex := Cat (Plus Space) p_dump.

(** What each tail matches at the start of [s], every run taken whole. *)
Definition d_tail (U : unicode) (s : text) (cs : captures)
  : option (captures * text) :=
  match run_of U Space s with
  | Some (_, s8) =>
      match strip_prefix (lit "(buffer full or fail)") s8 with
      | Some s9 =>
          Some (set_capture 2 (firstn (List.length s - List.length s9) s) cs, s9)
      | None => Some (cs, s)
      end
  | None => Some (cs, s)
  end.

Definition d_ms (U : unicode) (s : text) (cs : captures) :=
  match strip_prefix (lit "ms") s with
  | Some s7 => d_tail U s7 cs
  | None => None
  end.

Definition d_sp3 (U : unicode) (s : text) (cs : captures) :=
  match run_of U Space s with
  | Some (_, s6) => d_ms U s6 cs
  | None => None
  end.

Definition d_num (U : unicode) (s : text) (cs : captures) :=
  match run_of U Digit s with
  | Some (ds, s5) => d_sp3 U s5 (set_capture 1 ds cs)
  | None => None
  end.

Definition d_sp2 (U : unicode) (s : text) (cs : captures) :=
  match run_of U Space s with
  | Some (_, s4) => d_num U s4 cs
  | None => None
  end.

Definition d_dump (U : unicode) (s : text) (cs : captures) :=
  match strip_prefix (lit "// dumpBinary:") s with
  | Some s3 => d_sp2 U s3 cs
  | None => None
  end.

Definition d_sp1 (U : unicode) (s : text) (cs : captures) :=
  match run_of U Space s with
  | Some (_, s2) => d_dump U s2 cs
  | None => None
  end.

Definition d_pat (U : unicode) (s : text) : option (captures * text) :=
  match strip_prefix (lit "[Fastbot]:") s with
  | Some s1 => d_sp1 U s1 no_captures
  | None => None
  end.

(** The event [parse_log] records for a match. *)
Definition event_of (U : unicode) (cs : captures) : event :=
  (match cs 1%nat with Some ds => digits_value U ds | None => 0 end,
   is_not_None (cs 2%nat)).

(** The match [cs] gives the event [ev]: group 1 converts to the
    duration, and the flag tells whether group 2 took part. *)
Definition records (U : unicode) (cs : captures) (ev : event) : Prop :=
  int_str U (cs 1%nat) = Ret (fst ev) /\ is_not_None (cs 2%nat) = snd ev.

(* ================================================================== *)
(** ** The spec's reading of the percentile *)
(* ================================================================== *)

(** A returned number [m] is numerically equal to [v] (Python's [==]). *)
Definition returns (m : res Q) (v : Q) : Prop :=
  match m with
  | Ret q => (q == v)%Q
  | Exn _ => False
  end.

(** The order statistic [s[i]] of the spec's formula. *)
Definition order_stat (s : list Z) (i : Z) : Q :=
  inject_Z (nth (Z.to_nat i) s 0).

(** The interpolation formula in the spec's words: rank
    [k = (n-1) * p/100], [f = floor(k)], [c = min(f+1, n-1)], and
    [s[f] + (k-f)*(s[c]-s[f])] when [c > f], else [s[f]]. *)
Definition percentile_formula (s : list Z) (p : Z) : Q :=
  let n := len s in
  let k := (inject_Z (n - 1) * (inject_Z p / 100))%Q in
  let f := Qfloor k in
  let c := Z.min (f + 1) (n - 1) in
  if f <? c
  then (order_stat s f + (k - inject_Z f) * (order_stat s c - order_stat s f))%Q
  else order_stat s f.

(** The value [percentile] returns, with the rank given by its
    numerator [a = (n-1) * p] over 100. *)
Definition interp (s : list Z) (a : Z) : Q :=
  let f := a / 100 in
  if f + 1 <? len s
  then (order_stat s f
        + (inject_Z a / 100 - inject_Z f)
          * inject_Z (nth (Z.to_nat (f + 1)) s 0%Z - nth (Z.to_nat f) s 0%Z))%Q
  else order_stat s f.

(* ================================================================== *)
(** ** The segmenter's boundaries and slices *)
(* ================================================================== *)

(** The boundary before segment [i] of [n] events cut in [k]:
    the integer part of [i * n / k]. *)
Definition boundary (n k i : Z) : Z := i * n / k.

(** The record emitted for loop index [i], or nothing when the segment
    is empty. *)
Definition emitted_at (data : series) (k i : Z) : option Segment :=
  let a := boundary (len data) k i in
  let b := boundary (len data) k (i + 1) in
  if a >=? b then None
  else
    let seg_ms := slice (map fst data) a b in
    let fail_count := sum (map bool_int (slice (map snd data) a b)) in
    Some (mkSegment (i + 1) (a + 1) b (b - a)
            (inject_Z (sum seg_ms) / inject_Z (b - a))
            fail_count
            (100 * inject_Z fail_count / inject_Z (b - a))).

Definition opt_list {A : Type} (o : option A) : list A :=
  match o with
  | Some a => [a]
  | None => []
  end.

(** The records emitted for the loop indices [idxs], in order. *)
Definition emitted (data : series) (k : Z) (idxs : list Z) : list Segment :=
  flat_map (fun i => opt_list (emitted_at data k i)) idxs.

(** The events a segment record stands for: the slice [start, end) of
    the series, from the record's 1-based inclusive ordinals. *)
Definition events_of (data : series) (sg : Segment) : series :=
  slice data (seg_start sg - 1) (seg_end sg).

(** The positions 1, 2, ..., m of a list of [m] emitted records. *)
Definition emission_positions (segs : list Segment) : list Z :=
  map (fun i => i + 1) (range (len segs)).

(* ================================================================== *)
(** ** Notions used by the further properties *)
(* ================================================================== *)

(** The records [segs] tile the ordinals [a+1 .. b]: each starts right
    after the previous one ends and counts the ordinals it spans. *)
Fixpoint tiles (a : Z) (segs : list Segment) (b : Z) : Prop :=
  match segs with
  | [] => a = b
  | sg :: rest =>
      seg_start sg = a + 1
      /\ seg_count sg = seg_end sg - a
      /\ 1 <= seg_count sg
      /\ tiles (seg_end sg) rest b
  end.

(** The values of the decimal digits are 0..9. *)
Definition decimal_digits (U : unicode) : Prop :=
  forall x v, decimal U x = Some v -> 0 <= v <= 9.

(** In the world [w] the computation [m] ends with the value [a], or
    with the uncaught exception [e], from whatever trace it starts. *)
Definition yields {A : Type} (w : world) (m : io A) (a : A) : Prop :=
  forall tr, exists tr', m w tr = (tr', Done a).

Definition raises {A : Type} (w : world) (m : io A) (e : exn) : Prop :=
  forall tr, exists tr', m w tr = (tr', Uncaught e).

(** In the world [w] the computation [m] only adds to the trace. *)
Definition grows {A : Type} (w : world) (m : io A) : Prop :=
  forall tr, exists ext, fst (m w tr) = tr ++ ext.

(** The comparison of the report divides by the first mean: both
    series have events and the durations of the first add up to 0. *)
Definition zero_mean_crash (d1 d2 : series) : bool :=
  match d1, d2 with
  | _ :: _, _ :: _ => sum (map fst d1) =? 0
  | _, _ => false
  end.

(** [m] ends in [w] by the division by zero when [crash] holds, and
    with the value [a] otherwise. *)
Definition ends {A : Type} (w : world) (m : io A) (crash : bool) (a : A) : Prop :=
  if crash then raises w m ZeroDivisionError else yields w m a.

(** In the world [w] the computation [m] adds exactly the events [evs]
    to the trace and ends with the value [a]. *)
Definition emits {A : Type} (w : world) (m : io A) (evs : list effect) (a : A)
  : Prop :=
  forall tr, m w tr = (tr ++ evs, Done a).

(** In the world [w] the computation [m] first adds the events [pre]
    to the trace, whatever it does afterwards. *)
Definition starts {A : Type} (w : world) (m : io A) (pre : list effect) : Prop :=
  forall tr, exists ext, fst (m w tr) = tr ++ pre ++ ext.

(** A trace shows nothing on standard output. *)
Definition silent (tr : list effect) : Prop :=
  forall l, ~ In (EvPrint stdout l) tr.

(** The sum of a list of rationals. *)
Definition Qsum (l : list Q) : Q := fold_right Qplus 0%Q l.

(** The total duration a record stands for: its count times its mean. *)
Definition seg_total (sg : Segment) : Q :=
  (inject_Z (seg_count sg) * seg_avg sg)%Q.

(* ================================================================== *)
(** * Proofs *)
(* ================================================================== *)

(** ** Arithmetic of the run-time support *)

Lemma len_nonneg {A} (l : list A) : 0 <= len l.
Proof. unfold len. lia. Qed.

Lemma len_cons {A} (x : A) (l : list A) : len (x :: l) = len l + 1.
Proof. unfold len. simpl List.length. lia. Qed.

Lemma len_pos {A} (l : list A) : l <> [] -> 0 < len l.
Proof. destruct l; [congruence | rewrite len_cons; pose proof (len_nonneg l); lia]. Qed.

Lemma py_int_nonneg (x : Q) : (0 <= x)%Q -> py_int x = Qfloor x.
Proof.
  intros H. unfold py_int.
  apply Qle_bool_iff in H. now rewrite H.
Qed.

Lemma inject_Z_sub (a b : Z) : inject_Z (a - b) = (inject_Z a - inject_Z b)%Q.
Proof. unfold Z.sub, Qminus. now rewrite inject_Z_plus, inject_Z_opp. Qed.

Lemma getitem_in_range {A} (l : list A) (i : Z) (d : A) :
  0 <= i < len l -> getitem l i = Ret (nth (Z.to_nat i) l d).
Proof.
  intros [H0 H1]. unfold getitem.
  destruct (Z.ltb_spec i 0); [lia|].
  destruct (Z.ltb_spec i 0); [lia|].
  destruct (Z.leb_spec (len l) i); [lia|]. simpl.
  destruct (nth_error l (Z.to_nat i)) eqn:E.
  - now rewrite (nth_error_nth _ _ d E).
  - apply nth_error_None in E. unfold len in H1. lia.
Qed.

(** ** percentile on a non-empty array *)

Lemma rank_nonneg (a : Z) : 0 <= a -> (0 <= inject_Z a / 100)%Q.
Proof.
  intros Ha. apply Qle_shift_div_l; [reflexivity|].
  rewrite Qmult_0_l. change 0%Q with (inject_Z 0). now rewrite <- Zle_Qle.
Qed.

Lemma rank_floor_bounds (n p : Z) :
  1 <= n -> 0 <= p <= 100 -> 0 <= (n - 1) * p / 100 <= n - 1.
Proof.
  intros Hn Hp. split.
  - apply Z.div_pos; nia.
  - apply Z.div_le_upper_bound; nia.
Qed.

Lemma percentile_interp (s : list Z) (p : Z) :
  s <> [] -> 0 <= p <= 100 ->
  percentile s p = Ret (interp s ((len s - 1) * p)).
Proof.
  intros Hs Hp. pose proof (len_pos s Hs) as Hn.
  pose proof (rank_floor_bounds (len s) p ltac:(lia) Hp) as Hf.
  unfold percentile, interp. destruct s as [|x s]; [congruence|].
  set (l := x :: s) in *. set (a := (len l - 1) * p) in *.
  assert (Ha : 0 <= a) by (unfold a; nia).
  rewrite (py_int_nonneg _ (rank_nonneg a Ha)).
  change 100%Q with (inject_Z 100). rewrite <- Zdiv_Qdiv.
  destruct (Z.ltb_spec (a / 100 + 1) (len l)) as [Hc|Hc].
  - replace (a / 100 + 1 >? a / 100) with true by (symmetry; apply Z.gtb_lt; lia).
    rewrite (getitem_in_range l (a / 100) 0) by lia.
    rewrite (getitem_in_range l (a / 100 + 1) 0) by lia.
    reflexivity.
  - replace (a / 100 >? a / 100) with false
      by (symmetry; rewrite Z.gtb_ltb; apply Z.ltb_ge; lia).
    rewrite (getitem_in_range l (a / 100) 0) by lia.
    reflexivity.
Qed.

Lemma rank_product (n p : Z) :
  (inject_Z (n - 1) * (inject_Z p / 100) == inject_Z ((n - 1) * p) / 100)%Q.
Proof. rewrite inject_Z_mult. field. Qed.

Lemma interp_formula (s : list Z) (p : Z) :
  s <> [] -> 0 <= p <= 100 ->
  (interp s ((len s - 1) * p) == percentile_formula s p)%Q.
Proof.
  intros Hs Hp. pose proof (len_pos s Hs) as Hn.
  pose proof (rank_floor_bounds (len s) p ltac:(lia) Hp) as Hf.
  unfold interp, percentile_formula.
  rewrite (Qfloor_comp _ _ (rank_product (len s) p)).
  change 100%Q with (inject_Z 100). rewrite <- Zdiv_Qdiv.
  set (a := (len s - 1) * p) in *. set (f := a / 100) in *.
  destruct (Z.ltb_spec (f + 1) (len s)) as [Hc|Hc].
  - rewrite Z.min_l by lia.
    replace (f <? f + 1) with true by (symmetry; apply Z.ltb_lt; lia).
    unfold order_stat. rewrite (rank_product (len s) p).
    fold a. rewrite inject_Z_sub. reflexivity.
  - rewrite Z.min_r by lia.
    replace (f <? len s - 1) with false by (symmetry; apply Z.ltb_ge; lia).
    reflexivity.
Qed.



(** ** Order statistics of a sorted array *)

Lemma sorted_strongly (l : list Z) : StronglySorted Z.le (sorted l).
Proof.
  assert (H : StronglySorted (fun x y => is_true (x <=? y)) (sorted l)).
  { apply ZSort.StronglySorted_sort. intros x y z Hxy Hyz.
    unfold is_true in *. rewrite Z.leb_le in *. lia. }
  induction H as [|a s Hs IH Ha]; constructor; auto.
  eapply Forall_impl; [|exact Ha]. intros b Hb. now apply Z.leb_le.
Qed.

Lemma sorted_length (l : list Z) : len (sorted l) = len l.
Proof.
  unfold len. f_equal. symmetry.
  apply Permutation_length, ZSort.Permuted_sort.
Qed.

Lemma sorted_In (l : list Z) (x : Z) : In x (sorted l) <-> In x l.
Proof.
  split; apply Permutation_in;
    [apply Permutation_sym|]; apply ZSort.Permuted_sort.
Qed.

Lemma strongly_sorted_nth (s : list Z) :
  StronglySorted Z.le s ->
  forall i j, (i <= j < List.length s)%nat -> nth i s 0 <= nth j s 0.
Proof.
  induction 1 as [|a s Hs IH Ha]; intros i j Hij; simpl in Hij; [lia|].
  destruct i as [|i], j as [|j]; simpl; try lia.
  - rewrite Forall_forall in Ha. apply Ha, nth_In. lia.
  - apply IH. lia.
Qed.

Section SortedArray.
Variable s : list Z.
Hypothesis s_sorted : StronglySorted Z.le s.

Lemma order_stat_mono (i j : Z) :
  0 <= i <= j -> j < len s -> (order_stat s i <= order_stat s j)%Q.
Proof.
  intros Hij Hj. unfold order_stat. rewrite <- Zle_Qle.
  apply strongly_sorted_nth; [exact s_sorted|].
  unfold len in Hj. lia.
Qed.

(** The fractional part of a rank lies in [0, 1). *)
Lemma rank_frac (a : Z) :
  (0 <= inject_Z a / 100 - inject_Z (a / 100) < 1)%Q.
Proof.
  rewrite Zdiv_Qdiv. change (inject_Z 100) with 100%Q.
  pose proof (Qfloor_le (inject_Z a / 100)) as Hlo.
  pose proof (Qlt_floor (inject_Z a / 100)) as Hhi.
  rewrite inject_Z_plus in Hhi. change (inject_Z 1) with 1%Q in Hhi.
  split; lra.
Qed.

(** [interp] lies between the two order statistics it interpolates. *)
Lemma interp_between (a : Z) :
  0 <= a -> a / 100 < len s ->
  (order_stat s (a / 100) <= interp s a)%Q
  /\ (interp s a <= order_stat s (Z.min (a / 100 + 1) (len s - 1)))%Q.
Proof.
  intros Ha Hf. assert (H0 : 0 <= a / 100) by (apply Z.div_pos; lia).
  unfold interp. destruct (Z.ltb_spec (a / 100 + 1) (len s)) as [Hc|Hc].
  - rewrite Z.min_l by lia. rewrite inject_Z_sub. fold (order_stat s (a / 100)).
    fold (order_stat s (a / 100 + 1)).
    pose proof (order_stat_mono (a / 100) (a / 100 + 1) ltac:(lia) Hc) as Hd.
    pose proof (rank_frac a) as [Ht0 Ht1].
    split; nra.
  - rewrite Z.min_r by lia. replace (len s - 1) with (a / 100) by lia.
    split; apply Qle_refl.
Qed.

(** [interp] is monotone in the rank. *)
Lemma interp_mono (a b : Z) :
  0 <= a <= b -> b / 100 < len s ->
  (interp s a <= interp s b)%Q.
Proof.
  intros Hab Hb.
  assert (Hfab : a / 100 <= b / 100) by (apply Z.div_le_mono; lia).
  assert (H0 : 0 <= a / 100) by (apply Z.div_pos; lia).
  destruct (Z.eq_dec (a / 100) (b / 100)) as [E|NE].
  - unfold interp. rewrite <- E.
    destruct (Z.ltb_spec (a / 100 + 1) (len s)) as [Hc|Hc]; [|apply Qle_refl].
    rewrite inject_Z_sub. fold (order_stat s (a / 100)).
    fold (order_stat s (a / 100 + 1)).
    pose proof (order_stat_mono (a / 100) (a / 100 + 1) ltac:(lia) Hc) as Hd.
    assert (Hq : (inject_Z a / 100 <= inject_Z b / 100)%Q).
    { apply Qmult_le_compat_r; [rewrite <- Zle_Qle; lia | discriminate]. }
    nra.
  - destruct (interp_between a ltac:(lia) ltac:(lia)) as [_ Hup].
    destruct (interp_between b ltac:(lia) Hb) as [Hlo _].
    rewrite Z.min_l in Hup by lia.
    pose proof (order_stat_mono (a / 100 + 1) (b / 100) ltac:(lia) Hb).
    lra.
Qed.
End SortedArray.

(** ** sum, min and max *)

Lemma fold_add_acc (l : list Z) (a : Z) : fold_left Z.add l a = a + sum l.
Proof.
  unfold sum. revert a. induction l as [|x l IH]; intros a; simpl; [lia|].
  rewrite (IH (a + x)), (IH x). lia.
Qed.

Lemma sum_cons (x : Z) (l : list Z) : sum (x :: l) = x + sum l.
Proof. unfold sum at 1. simpl. apply fold_add_acc. Qed.

Lemma sum_app (l1 l2 : list Z) : sum (l1 ++ l2) = sum l1 + sum l2.
Proof.
  induction l1 as [|x l1 IH]; simpl; [reflexivity|].
  rewrite !sum_cons, IH. lia.
Qed.

Lemma sum_ones {A} (l : list A) : sum (map (fun _ => 1) l) = len l.
Proof.
  induction l as [|x l IH]; [reflexivity|].
  simpl map. rewrite sum_cons, len_cons, IH. lia.
Qed.

Lemma fold_min_spec (xs : list Z) (x : Z) :
  In (fold_left Z.min xs x) (x :: xs)
  /\ forall y, In y (x :: xs) -> fold_left Z.min xs x <= y.
Proof.
  revert x. induction xs as [|z xs IH]; intros x; simpl.
  - split; [now left | intros y [<-|[]]; lia].
  - destruct (IH (Z.min x z)) as [Hin Hle]. split.
    + destruct Hin as [E|Hin]; [|now right; right].
      rewrite <- E. destruct (Z.min_spec x z) as [[_ ->]|[_ ->]]; auto.
    + intros y Hy.
      assert (Hm : fold_left Z.min xs (Z.min x z) <= Z.min x z)
        by (apply Hle; now left).
      destruct Hy as [<-|[<-|Hy]]; [lia | lia |].
      apply Hle. now right.
Qed.

Lemma fold_max_spec (xs : list Z) (x : Z) :
  In (fold_left Z.max xs x) (x :: xs)
  /\ forall y, In y (x :: xs) -> y <= fold_left Z.max xs x.
Proof.
  revert x. induction xs as [|z xs IH]; intros x; simpl.
  - split; [now left | intros y [<-|[]]; lia].
  - destruct (IH (Z.max x z)) as [Hin Hle]. split.
    + destruct Hin as [E|Hin]; [|now right; right].
      rewrite <- E. destruct (Z.max_spec x z) as [[_ ->]|[_ ->]]; auto.
    + intros y Hy.
      assert (Hm : Z.max x z <= fold_left Z.max xs (Z.max x z))
        by (apply Hle; now left).
      destruct Hy as [<-|[<-|Hy]]; [lia | lia |].
      apply Hle. now right.
Qed.

Lemma truediv_nonzero (a : Q) (n : Z) :
  n <> 0 -> truediv a (inject_Z n) = Ret (a / inject_Z n)%Q.
Proof.
  intros Hn. unfold truediv.
  destruct (Qeq_bool (inject_Z n) 0) eqn:E; [|reflexivity].
  apply Qeq_bool_iff in E. unfold Qeq in E. simpl in E. lia.
Qed.

(** ** stats on a non-empty series *)

(** The record [stats] builds, field by field. *)
Lemma stats_nonempty (data : series) (name : string) :
  data <> [] ->
  exists mn mx,
    py_min (map fst data) = Ret mn /\ py_max (map fst data) = Ret mx /\
    stats data name =
    Ret (Some (mkStats name (len data) mn mx
                 (inject_Z (sum (map fst data)) / inject_Z (len data))
                 (interp (sorted (map fst data)) ((len data - 1) * 50))
                 (interp (sorted (map fst data)) ((len data - 1) * 90))
                 (interp (sorted (map fst data)) ((len data - 1) * 95))
                 (interp (sorted (map fst data)) ((len data - 1) * 99))
                 (len (filter snd data))
                 (100 * inject_Z (len (filter snd data)) / inject_Z (len data)))).
Proof.
  intros Hd. pose proof (len_pos data Hd) as Hn.
  assert (Hlen : len (map fst data) = len data)
    by (unfold len; now rewrite length_map).
  assert (Hs : sorted (map fst data) <> []).
  { intros E. pose proof (sorted_length (map fst data)) as H.
    rewrite E, Hlen in H. unfold len in H at 1. simpl in H. lia. }
  unfold stats. destruct data as [|e data]; [congruence|].
  set (d := e :: data) in *.
  exists (fold_left Z.min (map fst data) (fst e)),
         (fold_left Z.max (map fst data) (fst e)).
  split; [reflexivity|]. split; [reflexivity|].
  change (py_min (map fst d)) with (Ret (fold_left Z.min (map fst data) (fst e))).
  change (py_max (map fst d)) with (Ret (fold_left Z.max (map fst data) (fst e))).
  cbn [bind]. rewrite Hlen.
  rewrite truediv_nonzero by lia. cbn [bind].
  rewrite !percentile_interp by (auto; lia).
  cbn [bind]. rewrite sorted_length, Hlen.
  destruct (Z.eqb_spec (len d) 0); [lia|].
  rewrite truediv_nonzero by lia. cbn [bind].
  now rewrite sum_ones.
Qed.

Lemma order_stat_In (s : list Z) (i : Z) :
  0 <= i < len s -> exists x, In x s /\ order_stat s i = inject_Z x.
Proof.
  intros Hi. exists (nth (Z.to_nat i) s 0). split; [|reflexivity].
  apply nth_In. unfold len in Hi. lia.
Qed.

Lemma percentile_rank_in_range (n p : Z) :
  1 <= n -> 0 <= p <= 100 ->
  0 <= (n - 1) * p /\ 0 <= (n - 1) * p / 100 < n
  /\ 0 <= Z.min ((n - 1) * p / 100 + 1) (n - 1) < n.
Proof.
  intros Hn Hp. pose proof (rank_floor_bounds n p Hn Hp). split; [nia|lia].
Qed.



(** ** A series of equal durations *)

Lemma sum_constant (l : list Z) (v : Z) :
  (forall x, In x l -> x = v) -> sum l = len l * v.
Proof.
  induction l as [|x l IH]; intros H; [reflexivity|].
  rewrite sum_cons, len_cons, IH by (intros y Hy; apply H; now right).
  rewrite (H x) by now left. lia.
Qed.

Lemma interp_constant (s : list Z) (v a : Z) :
  (forall x, In x s -> x = v) -> 0 <= a -> a / 100 < len s ->
  (interp s a == inject_Z v)%Q.
Proof.
  intros H Ha Hf. assert (H0 : 0 <= a / 100) by (apply Z.div_pos; lia).
  assert (Hnth : forall i, 0 <= i < len s -> nth (Z.to_nat i) s 0 = v).
  { intros i Hi. apply H, nth_In. unfold len in Hi. lia. }
  unfold interp, order_stat.
  destruct (Z.ltb_spec (a / 100 + 1) (len s)) as [Hc|Hc].
  - rewrite !Hnth by lia. rewrite Z.sub_diag. change (inject_Z 0) with 0%Q. ring.
  - rewrite Hnth by lia. reflexivity.
Qed.



(** C10.  [percentile] returns 0 on an empty array, whatever [p] is,
    and [stats] returns [None] on an empty series without calling it. *)
Theorem percentile_empty_total :
  (forall p, percentile [] p = Ret 0%Q)
  /\ (forall name, stats [] name = Ret None).
Proof. split; reflexivity. Qed.

(** ** Slices *)

Lemma slice_in_range {A} (l : list A) (a b : Z) :
  0 <= a <= b -> b <= len l ->
  slice l a b = firstn (Z.to_nat (b - a)) (skipn (Z.to_nat a) l).
Proof.
  intros Hab Hb. unfold slice, slice_bound.
  destruct (Z.ltb_spec a 0); [lia|]. destruct (Z.ltb_spec b 0); [lia|].
  now rewrite !Z.min_l by lia.
Qed.

Lemma slice_length {A} (l : list A) (a b : Z) :
  0 <= a <= b -> b <= len l -> len (slice l a b) = b - a.
Proof.
  intros Hab Hb. rewrite slice_in_range by assumption.
  unfold len in *. rewrite length_firstn, length_skipn. lia.
Qed.

Lemma firstn_extend {A} (l : list A) (a c : nat) :
  firstn a l ++ firstn c (skipn a l) = firstn (a + c) l.
Proof.
  revert l. induction a as [|a IH]; intros l; [reflexivity|].
  destruct l as [|x l]; simpl.
  - now rewrite firstn_nil.
  - now rewrite IH.
Qed.

Lemma firstn_slice {A} (l : list A) (a b : Z) :
  0 <= a <= b -> b <= len l ->
  firstn (Z.to_nat a) l ++ slice l a b = firstn (Z.to_nat b) l.
Proof.
  intros Hab Hb. rewrite slice_in_range by assumption.
  rewrite firstn_extend. f_equal. lia.
Qed.

(** ** Boundaries *)

Section Boundaries.
Variables n k : Z.
Hypothesis n_nonneg : 0 <= n.
Hypothesis k_pos : 1 <= k.

Lemma boundary_0 : boundary n k 0 = 0.
Proof. unfold boundary. now rewrite Z.mul_0_l, Z.div_0_l by lia. Qed.

Lemma boundary_last : boundary n k k = n.
Proof. unfold boundary. rewrite Z.mul_comm. apply Z.div_mul. lia. Qed.

Lemma boundary_mono (i j : Z) : i <= j -> boundary n k i <= boundary n k j.
Proof. intros Hij. unfold boundary. apply Z.div_le_mono; nia. Qed.

Lemma boundary_nonneg (i : Z) : 0 <= i -> 0 <= boundary n k i.
Proof. intros Hi. unfold boundary. apply Z.div_pos; nia. Qed.

Lemma boundary_le_n (i : Z) : i <= k -> boundary n k i <= n.
Proof. intros Hi. rewrite <- boundary_last at 2. now apply boundary_mono. Qed.

(** With more segments than events a boundary advances by at most one. *)
Lemma boundary_step_small (i : Z) :
  n < k -> boundary n k (i + 1) <= boundary n k i + 1.
Proof.
  intros Hnk. unfold boundary.
  replace ((i + 1) * n) with (i * n + n) by lia.
  assert (H : (i * n + n) / k <= (i * n + k) / k)
    by (apply Z.div_le_mono; lia).
  replace (i * n + k) with (i * n + 1 * k) in H by lia.
  rewrite Z.div_add in H by lia. exact H.
Qed.

(** With at most as many segments as events every segment is non-empty. *)
Lemma boundary_step_large (i : Z) :
  k <= n -> boundary n k i < boundary n k (i + 1).
Proof.
  intros Hkn. unfold boundary.
  replace ((i + 1) * n) with (i * n + n) by lia.
  assert (H : (i * n + 1 * k) / k <= (i * n + n) / k)
    by (apply Z.div_le_mono; lia).
  rewrite Z.div_add in H by lia. lia.
Qed.

(** The code's float expressions compute the boundaries. *)
Lemma start_of_boundary (i : Z) :
  0 <= i -> start_of (inject_Z n / inject_Z k) i = boundary n k i.
Proof.
  intros Hi. unfold start_of, boundary.
  assert (E : (inject_Z i * (inject_Z n / inject_Z k)
               == inject_Z (i * n) / inject_Z k)%Q).
  { rewrite inject_Z_mult. field. unfold Qeq. simpl. lia. }
  assert (H0 : (0 <= inject_Z i * (inject_Z n / inject_Z k))%Q).
  { rewrite E. apply Qle_shift_div_l.
    - change 0%Q with (inject_Z 0). rewrite <- Zlt_Qlt. lia.
    - rewrite Qmult_0_l. change 0%Q with (inject_Z 0). rewrite <- Zle_Qle. nia. }
  rewrite (py_int_nonneg _ H0), (Qfloor_comp _ _ E). symmetry. apply Zdiv_Qdiv.
Qed.

Lemma end_of_boundary (i : Z) :
  0 <= i < k ->
  end_of n k (inject_Z n / inject_Z k) i = boundary n k (i + 1).
Proof.
  intros Hi. unfold end_of. destruct (Z.ltb_spec i (k - 1)).
  - apply (start_of_boundary (i + 1)). lia.
  - replace (i + 1) with k by lia. now rewrite boundary_last.
Qed.
End Boundaries.

(** ** The loop of segment_avgs *)

Lemma range_In (n i : Z) : In i (range n) <-> 0 <= i < n.
Proof.
  unfold range. rewrite in_map_iff. split.
  - intros (j & <- & Hj). apply in_seq in Hj. lia.
  - intros Hi. exists (Z.to_nat i). split; [lia|]. apply in_seq. lia.
Qed.

Lemma range_succ (n : Z) : 0 <= n -> range (n + 1) = range n ++ [n].
Proof.
  intros Hn. unfold range.
  replace (Z.to_nat (n + 1)) with (S (Z.to_nat n)) by lia.
  rewrite seq_S, map_app. simpl. now rewrite Z2Nat.id.
Qed.

Lemma segment_loop_pure (body : Z -> res (option Segment))
    (f : Z -> option Segment) (idxs : list Z) (acc : list Segment) :
  (forall i, In i idxs -> body i = Ret (f i)) ->
  segment_loop body idxs acc
  = Ret (acc ++ flat_map (fun i => opt_list (f i)) idxs).
Proof.
  revert acc. induction idxs as [|i idxs IH]; intros acc H; simpl.
  - now rewrite app_nil_r.
  - rewrite (H i) by now left. cbn [bind].
    destruct (f i) as [sg|]; rewrite IH by (intros j Hj; apply H; now right).
    + simpl. now rewrite <- app_assoc.
    + reflexivity.
Qed.

Lemma segment_at_emitted (data : series) (k i : Z) :
  1 <= k -> 0 <= i < k ->
  segment_at (map fst data) (map snd data) (len data) k
             (inject_Z (len data) / inject_Z k) i
  = Ret (emitted_at data k i).
Proof.
  intros Hk Hi. pose proof (len_nonneg data) as Hn.
  unfold segment_at, emitted_at.
  rewrite start_of_boundary, end_of_boundary by lia.
  set (a := boundary (len data) k i). set (b := boundary (len data) k (i + 1)).
  destruct (Z.geb_spec a b) as [Hge|Hlt]; [reflexivity|].
  assert (Ha : 0 <= a) by (apply boundary_nonneg; lia).
  assert (Hb : b <= len data) by (apply boundary_le_n; lia).
  assert (Hlen : len (slice (map fst data) a b) = b - a).
  { apply slice_length; [lia|]. unfold len. now rewrite length_map. }
  rewrite Hlen, !truediv_nonzero by lia. reflexivity.
Qed.

(** What [segment_avgs] returns. *)
Lemma segment_avgs_emitted (data : series) (k : Z) :
  1 <= k ->
  segment_avgs data k = Ret (match data with
                             | [] => []
                             | _ => emitted data k (range k)
                             end).
Proof.
  intros Hk. unfold segment_avgs. destruct data as [|e data]; [reflexivity|].
  set (d := e :: data). rewrite truediv_nonzero by lia. cbn [bind].
  rewrite (segment_loop_pure _ (emitted_at d k)).
  - reflexivity.
  - intros i Hi. apply range_In in Hi.
    unfold d. now apply segment_at_emitted.
Qed.

Lemma emitted_succ (data : series) (k j : Z) :
  0 <= j ->
  emitted data k (range (j + 1))
  = emitted data k (range j) ++ opt_list (emitted_at data k j).
Proof.
  intros Hj. unfold emitted. rewrite range_succ by assumption.
  rewrite flat_map_app. simpl. now rewrite app_nil_r.
Qed.

(** The facts about one emitted record that the claims rest on. *)
Lemma emitted_at_Some (data : series) (k i : Z) (sg : Segment) :
  emitted_at data k i = Some sg ->
  boundary (len data) k i < boundary (len data) k (i + 1)
  /\ seg_index sg = i + 1
  /\ seg_start sg = boundary (len data) k i + 1
  /\ seg_end sg = boundary (len data) k (i + 1)
  /\ seg_count sg = boundary (len data) k (i + 1) - boundary (len data) k i.
Proof.
  unfold emitted_at.
  destruct (Z.geb_spec (boundary (len data) k i) (boundary (len data) k (i + 1)));
    [discriminate|].
  intros [= <-]. simpl. repeat split; lia.
Qed.

Lemma emitted_at_None (data : series) (k i : Z) :
  emitted_at data k i = None
  <-> boundary (len data) k (i + 1) <= boundary (len data) k i.
Proof.
  unfold emitted_at.
  destruct (Z.geb_spec (boundary (len data) k i) (boundary (len data) k (i + 1)));
    split; intros; try discriminate; try reflexivity; lia.
Qed.

(** After the first [j] iterations the emitted slices make up the
    series up to boundary [j], and the counts add up to it. *)
Lemma emitted_prefix (data : series) (k : Z) (m : nat) :
  1 <= k -> Z.of_nat m <= k ->
  let segs := emitted data k (range (Z.of_nat m)) in
  concat (map (events_of data) segs)
    = firstn (Z.to_nat (boundary (len data) k (Z.of_nat m))) data
  /\ sum (map seg_count segs) = boundary (len data) k (Z.of_nat m).
Proof.
  intros Hk. pose proof (len_nonneg data) as Hn.
  induction m as [|m IH]; intros Hm segs.
  - subst segs. simpl. rewrite boundary_0 by lia. split; reflexivity.
  - destruct IH as [IHc IHs]; [lia|].
    subst segs. rewrite Nat2Z.inj_succ, <- Z.add_1_r.
    rewrite emitted_succ by lia.
    set (j := Z.of_nat m) in *.
    pose proof (boundary_mono (len data) k Hn Hk j (j + 1) ltac:(lia)) as Hmono.
    pose proof (boundary_nonneg (len data) k Hn Hk j ltac:(lia)) as H0.
    pose proof (boundary_le_n (len data) k Hn Hk (j + 1) ltac:(lia)) as Hle.
    rewrite !map_app, concat_app, sum_app, IHc, IHs.
    destruct (emitted_at data k j) as [sg|] eqn:E.
    + destruct (emitted_at_Some _ _ _ _ E) as (Hlt & _ & Hst & Hen & Hct).
      simpl. rewrite app_nil_r, sum_cons. unfold events_of.
      rewrite Hst, Hen, Hct. replace (boundary (len data) k j + 1 - 1)
        with (boundary (len data) k j) by lia.
      split; [apply firstn_slice; lia | change (sum []) with 0; lia].
    + apply emitted_at_None in E. simpl. rewrite app_nil_r.
      replace (boundary (len data) k (j + 1)) with (boundary (len data) k j) by lia.
      split; [reflexivity | change (sum []) with 0; lia].
Qed.



Lemma emitted_In (data : series) (k : Z) (idxs : list Z) (sg : Segment) :
  In sg (emitted data k idxs)
  <-> exists i, In i idxs /\ emitted_at data k i = Some sg.
Proof.
  unfold emitted. rewrite in_flat_map. split; intros (i & Hi & H); exists i.
  - destruct (emitted_at data k i); simpl in H; [|tauto].
    destruct H as [->|[]]. auto.
  - rewrite H. simpl. auto.
Qed.

(** Every record of the result comes from a loop index in range. *)
Lemma segment_avgs_In (data : series) (k : Z) (segs : list Segment) (sg : Segment) :
  1 <= k -> segment_avgs data k = Ret segs -> In sg segs ->
  exists i, 0 <= i < k /\ emitted_at data k i = Some sg.
Proof.
  intros Hk. rewrite segment_avgs_emitted by assumption. intros [= <-] Hin.
  destruct data as [|e data]; [destruct Hin|].
  apply emitted_In in Hin. destruct Hin as (i & Hi & E).
  exists i. split; [now apply range_In | exact E].
Qed.



Lemma sum_all_ones (l : list Z) :
  (forall x, In x l -> x = 1) -> sum l = len l.
Proof. intros H. rewrite (sum_constant l 1 H). lia. Qed.



(** ** The reported segment index *)

Lemma len_app {A} (l1 l2 : list A) : len (l1 ++ l2) = len l1 + len l2.
Proof. unfold len. rewrite length_app. lia. Qed.

Lemma len_range (n : Z) : 0 <= n -> len (range n) = n.
Proof. intros Hn. unfold len, range. rewrite length_map, length_seq. lia. Qed.

Lemma strongly_sorted_snoc (l : list Z) (x : Z) :
  StronglySorted Z.lt l -> (forall y, In y l -> y < x) ->
  StronglySorted Z.lt (l ++ [x]).
Proof.
  induction 1 as [|a l Hl IH Ha]; intros Hx; simpl.
  - repeat constructor.
  - constructor.
    + apply IH. intros y Hy. apply Hx. now right.
    + apply Forall_app. split; [exact Ha|].
      constructor; [|constructor]. apply Hx. now left.
Qed.

(** The indices emitted by the first [m] iterations are increasing
    values of 1..m. *)
Lemma emitted_indices (data : series) (k : Z) (m : nat) :
  let idx := map seg_index (emitted data k (range (Z.of_nat m))) in
  StronglySorted Z.lt idx /\ forall y, In y idx -> 1 <= y <= Z.of_nat m.
Proof.
  induction m as [|m [IHs IHb]]; intros idx.
  - subst idx. simpl. split; [constructor | intros y []].
  - subst idx. rewrite Nat2Z.inj_succ, <- Z.add_1_r.
    rewrite emitted_succ by lia. rewrite map_app.
    destruct (emitted_at data k (Z.of_nat m)) as [sg|] eqn:E; simpl.
    + destruct (emitted_at_Some _ _ _ _ E) as (_ & Hidx & _). rewrite Hidx. split.
      * apply strongly_sorted_snoc; [exact IHs|].
        intros y Hy. apply IHb in Hy. lia.
      * intros y Hy. apply in_app_iff in Hy. destruct Hy as [Hy|[<-|[]]].
        -- apply IHb in Hy. lia.
        -- lia.
    + rewrite app_nil_r. split; [exact IHs|].
      intros y Hy. apply IHb in Hy. lia.
Qed.

Lemma emitted_cons (data : series) (k i : Z) (idxs : list Z) :
  emitted data k (i :: idxs)
  = opt_list (emitted_at data k i) ++ emitted data k idxs.
Proof. reflexivity. Qed.

(** At most one record per loop index; with one for each, the indices
    are the loop indices plus one. *)
Lemma emitted_length (data : series) (k : Z) (idxs : list Z) :
  len (emitted data k idxs) <= len idxs
  /\ (len (emitted data k idxs) = len idxs ->
      map seg_index (emitted data k idxs) = map (fun i => i + 1) idxs).
Proof.
  induction idxs as [|i idxs [IHl IHe]]; [split; [reflexivity | reflexivity]|].
  rewrite emitted_cons, len_app, len_cons.
  destruct (emitted_at data k i) as [sg|] eqn:E; simpl opt_list.
  - change (len [sg]) with 1. split; [lia|]. intros H.
    destruct (emitted_at_Some _ _ _ _ E) as (_ & Hidx & _).
    simpl. rewrite Hidx, IHe by lia. reflexivity.
  - change (len (@nil Segment)) with 0. split; lia.
Qed.

Lemma emitted_all (data : series) (k : Z) (idxs : list Z) :
  (forall i, In i idxs -> emitted_at data k i <> None) ->
  len (emitted data k idxs) = len idxs.
Proof.
  induction idxs as [|i idxs IH]; intros H; [reflexivity|].
  rewrite emitted_cons, len_app, len_cons.
  destruct (emitted_at data k i) as [sg|] eqn:E.
  - change (len (opt_list (Some sg))) with 1.
    rewrite IH by (intros j Hj; apply H; now right). lia.
  - exfalso. apply (H i); [now left | exact E].
Qed.

Lemma range_positions_last (m : Z) :
  1 <= m -> last (map (fun i => i + 1) (range m)) 0 = m.
Proof.
  intros Hm. replace m with (m - 1 + 1) at 1 by lia.
  rewrite range_succ, map_app by lia. simpl.
  rewrite last_last. lia.
Qed.

(** On a non-empty series the last loop index always emits. *)
Lemma emitted_last_index (data : series) (k : Z) :
  data <> [] -> 1 <= k ->
  last (map seg_index (emitted data k (range k))) 0 = k
  /\ 1 <= len (emitted data k (range k)).
Proof.
  intros Hne Hk. pose proof (len_pos data Hne) as Hn.
  assert (Hr : emitted data k (range k)
               = emitted data k (range (k - 1)) ++ opt_list (emitted_at data k (k - 1))).
  { replace (range k) with (range (k - 1 + 1)) by (f_equal; lia).
    apply emitted_succ. lia. }
  rewrite Hr. clear Hr.
  destruct (emitted_at data k (k - 1)) as [sg|] eqn:E.
  - destruct (emitted_at_Some _ _ _ _ E) as (_ & Hidx & _).
    rewrite map_app, len_app. simpl map. rewrite last_last.
    pose proof (len_nonneg (emitted data k (range (k - 1)))).
    change (len (opt_list (Some sg))) with 1. lia.
  - apply emitted_at_None in E.
    replace (k - 1 + 1) with k in E by lia.
    rewrite boundary_last in E by lia.
    assert (boundary (len data) k (k - 1) < len data); [|lia].
    unfold boundary. apply Z.div_lt_upper_bound; nia.
Qed.




(** ** The driver *)

Lemma io_bind_done {A B} (m : io A) (f : A -> io B) w tr tr' b :
  io_bind m f w tr = (tr', Done b) ->
  exists a tr1, m w tr = (tr1, Done a) /\ f a w tr1 = (tr', Done b).
Proof.
  unfold io_bind. destruct (m w tr) as [tr1 [a|c|e]]; try discriminate.
  intros H. now exists a, tr1.
Qed.

Ltac io_invert :=
  repeat match goal with
    | H : io_bind _ _ _ _ = (_, Done _) |- _ =>
        apply io_bind_done in H; destruct H as (? & ? & ? & H)
    | H : (if ?b then _ else _) _ _ = (_, Done _) |- _ => destruct b
    | H : sys_exit _ _ _ = (_, Done _) |- _ => discriminate H
    | H : io_ret _ _ _ = (_, Done _) |- _ => injection H as ? ?
    end.

(** Reaching the end of [main] returns 0. *)
Lemma main_done_zero (U : unicode) (w : world) tr tr' code :
  main U w tr = (tr', Done code) -> code = 0.
Proof.
  unfold main. intros H. io_invert. congruence.
Qed.

(** C7.  When the first log is missing the run prints the diagnostic
    on the error channel and exits with status 1, and when only the
    second is missing with status 2, in both cases right after the
    existence checks: nothing is read, parsed or printed to standard
    output.  When both exist and the run reaches the end of [main], the
    exit status is 0. *)
Theorem main_exit_status (U : unicode) (w : world) :
  (w "fastbot1.log"%string = Missing ->
   run U w = ([EvExists "fastbot1.log";
               EvPrint stderr (Message "Missing fastbot1.log")], 1))
  /\ (w "fastbot1.log"%string <> Missing ->
      w "fastbot2.log"%string = Missing ->
      run U w = ([EvExists "fastbot1.log"; EvExists "fastbot2.log";
                  EvPrint stderr (Message "Missing fastbot2.log")], 2))
  /\ (w "fastbot1.log"%string <> Missing ->
      w "fastbot2.log"%string <> Missing ->
      completes U w = true ->
      snd (run U w) = 0).
Proof.
  split; [|split].
  - intros H1. unfold run, main, io_bind, path_exists. rewrite H1. reflexivity.
  - intros H1 H2. unfold run, main, io_bind, path_exists.
    destruct (w "fastbot1.log"%string); [congruence | |];
      cbn [negb]; rewrite H2; reflexivity.
  - intros _ _ Hc. unfold completes, run in *.
    destruct (main U w []) as [tr [code|code|e]] eqn:E; try discriminate.
    simpl. exact (main_done_zero U w [] tr code E).
Qed.

(** ** Literals and runs *)

Lemma strip_prefix_app (l s : text) : strip_prefix l (l ++ s) = Some s.
Proof.
  induction l as [|a l IH]; simpl; [reflexivity|].
  now rewrite N.eqb_refl.
Qed.

Lemma strip_prefix_Some (l s s' : text) :
  strip_prefix l s = Some s' -> s = l ++ s'.
Proof.
  revert s. induction l as [|a l IH]; intros s; simpl.
  - now intros [= ->].
  - destruct s as [|b s]; [discriminate|].
    destruct (N.eqb_spec a b) as [->|]; [|discriminate].
    intros H. now rewrite (IH _ H).
Qed.

Lemma strip_prefix_head (a x : char) (l s : text) :
  a <> x -> strip_prefix (a :: l) (x :: s) = None.
Proof. intros H. simpl. now destruct (N.eqb_spec a x). Qed.

Section Runs.
Variable U : unicode.
Variable c : cclass.

Lemma take_drop_class (s : text) : take_class U c s ++ drop_class U c s = s.
Proof.
  induction s as [|x s IH]; simpl; [reflexivity|].
  destruct (in_class U c x); simpl; [now rewrite IH | reflexivity].
Qed.

Lemma take_class_all (s : text) :
  Forall (fun x => in_class U c x = true) (take_class U c s).
Proof.
  induction s as [|x s IH]; simpl; [constructor|].
  destruct (in_class U c x) eqn:E; constructor; assumption.
Qed.

Lemma drop_class_outside (s : text) : starts_outside U c (drop_class U c s).
Proof.
  induction s as [|x s IH]; simpl; [exact I|].
  destruct (in_class U c x) eqn:E; [exact IH | exact E].
Qed.

Lemma run_of_Some (s r s' : text) :
  run_of U c s = Some (r, s') ->
  s = r ++ s' /\ r <> []
  /\ Forall (fun x => in_class U c x = true) r
  /\ starts_outside U c s'.
Proof.
  unfold run_of. destruct s as [|x s]; [discriminate|].
  destruct (in_class U c x) eqn:E; [|discriminate].
  intros [= <- <-]. split; [|split; [|split]].
  - simpl. now rewrite take_drop_class.
  - discriminate.
  - constructor; [exact E | apply take_class_all].
  - apply drop_class_outside.
Qed.

Lemma take_drop_app (r s' : text) :
  Forall (fun x => in_class U c x = true) r -> starts_outside U c s' ->
  take_class U c (r ++ s') = r /\ drop_class U c (r ++ s') = s'.
Proof.
  intros Hr Hs. induction Hr as [|x r Hx Hr IH]; simpl.
  - destruct s' as [|y s']; [split; reflexivity|].
    simpl in Hs. simpl. rewrite Hs. split; reflexivity.
  - rewrite Hx. destruct IH as [-> ->]. split; reflexivity.
Qed.

Lemma run_of_app (r s' : text) :
  r <> [] -> Forall (fun x => in_class U c x = true) r ->
  starts_outside U c s' ->
  run_of U c (r ++ s') = Some (r, s').
Proof.
  intros Hne Hr Hs. destruct r as [|x r]; [congruence|].
  inversion Hr as [|? ? Hx Hr']; subst. simpl. rewrite Hx.
  destruct (take_drop_app r s' Hr' Hs) as [-> ->]. reflexivity.
Qed.

(** A continuation that fails on every text starting inside the
    class is reached with the whole run consumed. *)
Lemma many_greedy {R} (s : text) (k : text -> option R) :
  (forall x s', in_class U c x = true -> k (x :: s') = None) ->
  many U c s k = k (drop_class U c s).
Proof.
  intros Hk. induction s as [|x s IH]; simpl; [reflexivity|].
  destruct (in_class U c x) eqn:E; [|reflexivity].
  rewrite IH. destruct (k (drop_class U c s)) eqn:Ek; [reflexivity|].
  now apply Hk.
Qed.

Lemma bt_plus_greedy {R} (s : text) (cs : captures)
    (k : text -> captures -> option R) :
  (forall x s', in_class U c x = true -> k (x :: s') cs = None) ->
  bt U (Plus c) s cs k
  = match run_of U c s with
    | Some (_, s') => k s' cs
    | None => None
    end.
Proof.
  intros Hk. unfold run_of. simpl. destruct s as [|x s]; [reflexivity|].
  destruct (in_class U c x); [|reflexivity].
  now rewrite (many_greedy s (fun s'' => k s'' cs)).
Qed.
End Runs.

(** ** The matcher on the pattern *)

Lemma bt_Lit {R} U l s cs (k : text -> captures -> option R) :
  bt U (Lit l) s cs k
  = match strip_prefix l s with Some s' => k s' cs | None => None end.
Proof. reflexivity. Qed.

Lemma bt_Cat {R} U r1 r2 s cs (k : text -> captures -> option R) :
  bt U (Cat r1 r2) s cs k = bt U r1 s cs (fun s' cs' => bt U r2 s' cs' k).
Proof. reflexivity. Qed.

Lemma bt_Group {R} U g r s cs (k : text -> captures -> option R) :
  bt U (Group g r) s cs k
  = bt U r s cs
       (fun s' cs' =>
          k s' (set_capture g (firstn (List.length s - List.length s') s) cs')).
Proof. reflexivity. Qed.

Lemma bt_Opt {R} U r s cs (k : text -> captures -> option R) :
  bt U (Opt r) s cs k
  = match bt U r s cs k with Some x => Some x | None => k s cs end.
Proof. reflexivity. Qed.

Lemma firstn_consumed (r s' : text) :
  firstn (List.length (r ++ s') - List.length s') (r ++ s') = r.
Proof.
  rewrite length_app. replace (List.length r + List.length s' - List.length s')%nat
    with (List.length r + 0)%nat by lia.
  rewrite firstn_app_2. simpl. apply app_nil_r.
Qed.

Section Pattern.
Variable U : unicode.
Hypothesis tables : sound_tables U.

Lemma digit_not_space (x : char) :
  in_class U Digit x = true -> in_class U Space x = false.
Proof.
  destruct tables as [Hsd _]. simpl. intros Hd.
  destruct (isspace U x) eqn:E; [|reflexivity].
  now rewrite (Hsd x E) in Hd.
Qed.

Lemma space_not_digit (x : char) :
  in_class U Space x = true -> in_class U Digit x = false.
Proof.
  destruct tables as [Hsd _]. simpl. intros Hs. now rewrite (Hsd x Hs).
Qed.

(** A literal starting with a non-whitespace character does not
    match a text that starts with whitespace. *)
Lemma lit_rejects_space (a x : char) (l s' : text) :
  isspace U a = false -> in_class U Space x = true ->
  strip_prefix (a :: l) (x :: s') = None.
Proof.
  intros Ha Hx. apply strip_prefix_head. intros ->. simpl in Hx. congruence.
Qed.

Lemma bt_tail (s : text) (cs : captures) :
  bt U p_tail s cs accept = d_tail U s cs.
Proof.
  destruct tables as (_ & _ & _ & Hparen).
  unfold p_tail, d_tail. rewrite bt_Opt, bt_Group, bt_Cat.
  rewrite bt_plus_greedy.
  - destruct (run_of U Space s) as [[r s8]|]; [|reflexivity].
    rewrite bt_Lit.
    destruct (strip_prefix (lit "(buffer full or fail)") s8); reflexivity.
  - intros x s' Hx. rewrite bt_Lit.
    change (lit "(buffer full or fail)")
      with (40%N :: lit "buffer full or fail)").
    now rewrite (lit_rejects_space _ _ _ _ Hparen Hx).
Qed.

Lemma bt_ms (s : text) (cs : captures) :
  bt U p_ms s cs accept = d_ms U s cs.
Proof.
  unfold p_ms, d_ms. rewrite bt_Cat, bt_Lit.
  destruct (strip_prefix (lit "ms") s); [apply bt_tail | reflexivity].
Qed.

Lemma bt_sp3 (s : text) (cs : captures) :
  bt U p_sp3 s cs accept = d_sp3 U s cs.
Proof.
  destruct tables as (_ & _ & Hm & _).
  unfold p_sp3, d_sp3. rewrite bt_Cat, bt_plus_greedy.
  - destruct (run_of U Space s) as [[r s6]|]; [apply bt_ms | reflexivity].
  - intros x s' Hx. unfold p_ms. rewrite bt_Cat, bt_Lit.
    change (lit "ms") with (109%N :: lit "s").
    now rewrite (lit_rejects_space _ _ _ _ Hm Hx).
Qed.

Lemma bt_sp3_rejects_digit (x : char) (s' : text) (cs : captures) :
  in_class U Digit x = true -> bt U p_sp3 (x :: s') cs accept = None.
Proof.
  intros Hx. rewrite bt_sp3. unfold d_sp3, run_of.
  now rewrite (digit_not_space x Hx).
Qed.

Lemma bt_num (s : text) (cs : captures) :
  bt U p_num s cs accept = d_num U s cs.
Proof.
  unfold p_num, d_num. rewrite bt_Cat, bt_Group, bt_plus_greedy.
  - destruct (run_of U Digit s) as [[ds s5]|] eqn:E; [|reflexivity].
    destruct (run_of_Some _ _ _ _ _ E) as (-> & _).
    rewrite firstn_consumed. apply bt_sp3.
  - intros x s' Hx. now apply bt_sp3_rejects_digit.
Qed.

Lemma bt_sp2 (s : text) (cs : captures) :
  bt U p_sp2 s cs accept = d_sp2 U s cs.
Proof.
  unfold p_sp2, d_sp2. rewrite bt_Cat, bt_plus_greedy.
  - destruct (run_of U Space s) as [[r s4]|]; [apply bt_num | reflexivity].
  - intros x s' Hx. rewrite bt_num. unfold d_num, run_of.
    now rewrite (space_not_digit x Hx).
Qed.

Lemma bt_dump (s : text) (cs : captures) :
  bt U p_dump s cs accept = d_dump U s cs.
Proof.
  unfold p_dump, d_dump. rewrite bt_Cat, bt_Lit.
  destruct (strip_prefix (lit "// dumpBinary:") s); [apply bt_sp2 | reflexivity].
Qed.

Lemma bt_sp1 (s : text) (cs : captures) :
  bt U p_sp1 s cs accept = d_sp1 U s cs.
Proof.
  destruct tables as (_ & Hslash & _ & _).
  unfold p_sp1, d_sp1. rewrite bt_Cat, bt_plus_greedy.
  - destruct (run_of U Space s) as [[r s2]|]; [apply bt_dump | reflexivity].
  - intros x s' Hx. unfold p_dump. rewrite bt_Cat, bt_Lit.
    change (lit "// dumpBinary:") with (47%N :: lit "/ dumpBinary:").
    now rewrite (lit_rejects_space _ _ _ _ Hslash Hx).
Qed.

(** On the pattern the backtracking matcher finds what the reading
    without backtracking finds. *)
Lemma match_at_pat (s : text) : match_at U pat s = d_pat U s.
Proof.
  unfold match_at, d_pat.
  change pat with (Cat (Lit (lit "[Fastbot]:")) p_sp1).
  rewrite bt_Cat, bt_Lit.
  destruct (strip_prefix (lit "[Fastbot]:") s); [apply bt_sp1 | reflexivity].
Qed.
End Pattern.

(** ** Digits *)

Lemma int_digits_value (U : unicode) (ds : text) (acc : Z) :
  Forall (fun x => in_class U Digit x = true) ds ->
  int_digits U ds acc = Ret (digits_value_from U ds acc).
Proof.
  intros H. revert acc. induction H as [|x ds Hx Hds IH]; intros acc; simpl.
  - reflexivity.
  - simpl in Hx. destruct (decimal U x); [apply IH | discriminate].
Qed.

Lemma int_str_digits (U : unicode) (ds : text) :
  digits U ds -> int_str U (Some ds) = Ret (digits_value U ds).
Proof.
  intros [Hne Hds]. unfold int_str, digits_value.
  destruct ds as [|x ds]; [congruence|]. now apply int_digits_value.
Qed.

(** ** Occurrences and the reading without backtracking *)

Lemma starts_outside_app (U : unicode) (c c' : cclass) (r s : text) :
  r <> [] -> Forall (fun x => in_class U c' x = true) r ->
  (forall x, in_class U c' x = true -> in_class U c x = false) ->
  starts_outside U c (r ++ s).
Proof.
  intros Hne Hr Hcc. destruct r as [|x r]; [congruence|].
  inversion Hr; subst. simpl. auto.
Qed.

Lemma tag_colon (t : text) :
  fastbot_tag ++ lit ":" ++ t = lit "[Fastbot]:" ++ t.
Proof. reflexivity. Qed.

(** Whatever [d_pat] finds is an occurrence, with the event read off
    the captures. *)
Lemma d_pat_sound (U : unicode) (s rest : text) (cs : captures) :
  d_pat U s = Some (cs, rest) ->
  exists m d,
    s = m ++ rest
    /\ fastbot_occurrence U m d (is_not_None (cs 2%nat))
    /\ int_str U (cs 1%nat) = Ret d.
Proof.
  unfold d_pat, d_sp1, d_dump, d_sp2, d_num, d_sp3, d_ms, d_tail.
  destruct (strip_prefix _ s) as [s1|] eqn:E1; [|discriminate].
  destruct (run_of U Space s1) as [[ws1 s2]|] eqn:E2; [|discriminate].
  destruct (strip_prefix _ s2) as [s3|] eqn:E3; [|discriminate].
  destruct (run_of U Space s3) as [[ws2 s4]|] eqn:E4; [|discriminate].
  destruct (run_of U Digit s4) as [[ds s5]|] eqn:E5; [|discriminate].
  destruct (run_of U Space s5) as [[ws3 s6]|] eqn:E6; [|discriminate].
  destruct (strip_prefix _ s6) as [s7|] eqn:E7; [|discriminate].
  apply strip_prefix_Some in E1, E3, E7.
  apply run_of_Some in E2, E4, E5, E6.
  destruct E2 as (E2 & N2 & F2 & _), E4 as (E4 & N4 & F4 & _),
           E5 as (E5 & N5 & F5 & _), E6 as (E6 & N6 & F6 & _).
  assert (Hplain : s = (fastbot_tag ++ lit ":" ++ ws1 ++ lit "// dumpBinary:"
                          ++ ws2 ++ ds ++ ws3 ++ lit "ms") ++ s7).
  { rewrite E1, E2, E3, E4, E5, E6, E7. rewrite <- !app_assoc. reflexivity. }
  assert (Hocc : fastbot_occurrence U
                   (fastbot_tag ++ lit ":" ++ ws1 ++ lit "// dumpBinary:"
                      ++ ws2 ++ ds ++ ws3 ++ lit "ms")
                   (digits_value U ds) false)
    by (constructor; split; assumption).
  assert (Hint : int_str U (Some ds) = Ret (digits_value U ds))
    by (apply int_str_digits; split; assumption).
  destruct (run_of U Space s7) as [[ws4 s8]|] eqn:E8.
  - destruct (strip_prefix _ s8) as [s9|] eqn:E9.
    + intros [= <- <-]. apply strip_prefix_Some in E9.
      apply run_of_Some in E8. destruct E8 as (E8 & N8 & F8 & _).
      exists (fastbot_tag ++ lit ":" ++ ws1 ++ lit "// dumpBinary:"
                ++ ws2 ++ ds ++ ws3 ++ lit "ms" ++ ws4
                ++ lit "(buffer full or fail)"), (digits_value U ds).
      split; [|split].
      * rewrite Hplain, E8, E9. rewrite <- !app_assoc. reflexivity.
      * apply (occ_failed U fastbot_tag ws1 ws2 ds ws3 ws4); split; assumption.
      * exact Hint.
    + intros [= <- <-]. eauto.
  - intros [= <- <-]. eauto.
Qed.

Section Completeness.
Variable U : unicode.
Hypothesis tables : sound_tables U.

Lemma starts_outside_lit (a : char) (l : text) :
  isspace U a = false -> starts_outside U Space (a :: l).
Proof. intros H. exact H. Qed.

(** At the start of an occurrence [d_pat] finds it, or, where the
    marker follows an occurrence without it, the longer one. *)
Lemma d_pat_complete (m rest : text) (d : Z) (f : bool) :
  fastbot_occurrence U m d f ->
  exists cs rest0,
    d_pat U (m ++ rest) = Some (cs, rest0)
    /\ int_str U (cs 1%nat) = Ret d
    /\ ((is_not_None (cs 2%nat) = f /\ rest0 = rest)
        \/ (f = false /\ is_not_None (cs 2%nat) = true
            /\ (List.length rest0 < List.length rest)%nat)).
Proof.
  destruct tables as (Hsd & Hslash & Hm & Hparen).
  assert (Hdig : forall ds t, digits U ds -> starts_outside U Space (ds ++ t)).
  { intros ds t [Hne Hds].
    apply (starts_outside_app U Space Digit); auto.
    apply digit_not_space; assumption. }
  assert (Hsp : forall ws t, spaces U ws -> starts_outside U Digit (ws ++ t)).
  { intros ws t [Hne Hws].
    apply (starts_outside_app U Digit Space); auto.
    apply space_not_digit; assumption. }
  intros Hocc.
  destruct Hocc as [ws1 ws2 ds ws3 H1 H2 Hd H3 | ws1 ws2 ds ws3 ws4 H1 H2 Hd H3 H4];
    rewrite <- !app_assoc, tag_colon;
    unfold d_pat, d_sp1, d_dump, d_sp2, d_num, d_sp3, d_ms;
    rewrite strip_prefix_app;
    rewrite (run_of_app U Space ws1) by
      (try apply H1; apply starts_outside_lit, Hslash);
    rewrite strip_prefix_app;
    rewrite (run_of_app U Space ws2) by (try apply H2; now apply Hdig);
    rewrite (run_of_app U Digit ds) by (try apply Hd; now apply Hsp);
    rewrite (run_of_app U Space ws3) by
      (try apply H3; apply starts_outside_lit, Hm);
    rewrite strip_prefix_app; unfold d_tail.
  - destruct (run_of U Space rest) as [[ws4 s8]|] eqn:E8.
    + destruct (strip_prefix _ s8) as [s9|] eqn:E9.
      * do 2 eexists. split; [reflexivity|]. split.
        -- now apply int_str_digits.
        -- right. split; [reflexivity|]. split; [reflexivity|].
           apply strip_prefix_Some in E9. apply run_of_Some in E8.
           destruct E8 as (-> & N8 & _). subst s8.
           rewrite !length_app. destruct ws4; [congruence|]. simpl. lia.
      * do 2 eexists. split; [reflexivity|]. split.
        -- now apply int_str_digits.
        -- left. split; reflexivity.
    + do 2 eexists. split; [reflexivity|]. split.
      * now apply int_str_digits.
      * left. split; reflexivity.
  - rewrite (run_of_app U Space ws4) by
      (try apply H4; apply starts_outside_lit, Hparen).
    rewrite strip_prefix_app.
    do 2 eexists. split; [reflexivity|]. split.
    + now apply int_str_digits.
    + left. split; reflexivity.
Qed.
End Completeness.

(** ** finditer and the loop of parse_log *)

Lemma finditer_step (U : unicode) (r : regex) (s : text) :
  finditer U r s
  = match search U r s with
    | None => []
    | Some (cs, rest) =>
        if lt_dec (List.length rest) (List.length s)
        then cs :: finditer U r rest
        else [cs]
    end.
Proof.
  funelim (finditer U r s).
  - rewrite e. reflexivity.
  - rewrite e. destruct (lt_dec (List.length rest) (List.length s)); [|contradiction].
    reflexivity.
  - rewrite e. destruct (lt_dec (List.length rest) (List.length s)); [contradiction|].
    reflexivity.
Qed.

Lemma parse_loop_records (U : unicode) (ms_ : list captures) (evs acc : series) :
  Forall2 (records U) ms_ evs -> parse_loop U ms_ acc = Ret (acc ++ evs).
Proof.
  intros H. revert acc. induction H as [|cs [d f] ms_ evs [Hd Hf] _ IH];
    intros acc; simpl.
  - now rewrite app_nil_r.
  - simpl in Hd, Hf. rewrite Hd, Hf. cbn [bind].
    rewrite IH, <- app_assoc. reflexivity.
Qed.

Section Extraction.
Variable U : unicode.
Hypothesis tables : sound_tables U.

Lemma occurrence_nonempty (tag m : text) (d : Z) (f : bool) :
  occurrence U tag m d f -> (0 < List.length m)%nat.
Proof.
  intros [ws1 ws2 ds ws3 _ _ _ _ | ws1 ws2 ds ws3 ws4 _ _ _ _ _];
    rewrite !length_app; simpl; lia.
Qed.

(** Where the matcher fails no occurrence starts. *)
Lemma no_match_no_occurrence (s : text) :
  match_at U pat s = None ->
  forall m rest d f, s = m ++ rest -> ~ fastbot_occurrence U m d f.
Proof.
  intros Hnone m rest d f -> Hocc.
  destruct (d_pat_complete U tables m rest d f Hocc) as (cs & rest0 & E & _).
  rewrite match_at_pat in Hnone by exact tables. congruence.
Qed.

(** Where the matcher succeeds it has consumed the longest occurrence
    that starts there. *)
Lemma match_longest_occurrence (s rest : text) (cs : captures) :
  match_at U pat s = Some (cs, rest) ->
  exists m d,
    s = m ++ rest
    /\ fastbot_occurrence U m d (is_not_None (cs 2%nat))
    /\ records U cs (d, is_not_None (cs 2%nat))
    /\ forall m' rest' d' f',
         m ++ rest = m' ++ rest' -> fastbot_occurrence U m' d' f' ->
         (List.length m' <= List.length m)%nat.
Proof.
  intros Hm. rewrite match_at_pat in Hm by exact tables.
  destruct (d_pat_sound U s rest cs Hm) as (m & d & -> & Hocc & Hint).
  exists m, d. split; [reflexivity|]. split; [exact Hocc|].
  split; [split; [exact Hint | reflexivity]|].
  intros m' rest' d' f' E Hocc'.
  destruct (d_pat_complete U tables m' rest' d' f' Hocc')
    as (cs0 & rest0 & E0 & _ & Hrest).
  rewrite <- E, Hm in E0. injection E0 as <- <-.
  assert (Hlen : (List.length m + List.length rest
                  = List.length m' + List.length rest')%nat)
    by (rewrite <- !length_app; now rewrite E).
  destruct Hrest as [[_ ->]|(_ & _ & Hlt)]; lia.
Qed.

Lemma search_None_extraction (s : text) :
  search U pat s = None -> extraction (fastbot_occurrence U) s [].
Proof.
  induction s as [|c s IH]; simpl.
  - intros _. constructor.
  - destruct (match_at U pat (c :: s)) as [[cs rest]|] eqn:E; [discriminate|].
    intros Hs. apply ext_skip; [|now apply IH].
    now apply no_match_no_occurrence.
Qed.

Lemma search_Some_extraction (s rest : text) (cs : captures) :
  search U pat s = Some (cs, rest) ->
  (List.length rest < List.length s)%nat
  /\ exists ev,
       records U cs ev
       /\ forall evs, extraction (fastbot_occurrence U) rest evs ->
                      extraction (fastbot_occurrence U) s (ev :: evs).
Proof.
  assert (Hhit : forall s, match_at U pat s = Some (cs, rest) ->
            (List.length rest < List.length s)%nat
            /\ exists ev,
                 records U cs ev
                 /\ forall evs, extraction (fastbot_occurrence U) rest evs ->
                                extraction (fastbot_occurrence U) s (ev :: evs)).
  { intros s0 E.
    destruct (match_longest_occurrence s0 rest cs E)
      as (m & d & -> & Hocc & Hrec & Hmax).
    pose proof (occurrence_nonempty _ _ _ _ Hocc) as Hpos. split.
    - rewrite length_app. lia.
    - exists (d, is_not_None (cs 2%nat)). split; [exact Hrec|].
      intros evs Hevs. now apply ext_hit. }
  induction s as [|c s IH]; simpl.
  - discriminate.
  - destruct (match_at U pat (c :: s)) as [[cs0 rest0]|] eqn:E.
    + intros [= -> ->]. exact (Hhit (c :: s) E).
    + intros Hs. destruct (IH Hs) as (Hlt & ev & Hrec & Hext).
      split; [simpl; lia|]. exists ev. split; [exact Hrec|].
      intros evs Hevs. apply ext_skip; [|now apply Hext].
      now apply no_match_no_occurrence.
Qed.

(** The matches of [finditer] and the extraction they stand for. *)
Lemma finditer_extraction (t : text) :
  exists evs,
    Forall2 (records U) (finditer U pat t) evs
    /\ extraction (fastbot_occurrence U) t evs.
Proof.
  induction t as [t IH] using (induction_ltof1 _ (@List.length char)).
  unfold ltof in IH. rewrite finditer_step.
  destruct (search U pat t) as [[cs rest]|] eqn:E.
  - destruct (search_Some_extraction t rest cs E) as (Hlt & ev & Hrec & Hext).
    destruct (lt_dec (List.length rest) (List.length t)); [|contradiction].
    destruct (IH rest Hlt) as (evs & Hall & Hevs).
    exists (ev :: evs). split; [now constructor | now apply Hext].
  - exists []. split; [constructor | now apply search_None_extraction].
Qed.
End Extraction.

(** ** The extraction is determined by the text *)

Lemma app_same_length {A} (m m' rest rest' : list A) :
  m ++ rest = m' ++ rest' -> List.length m = List.length m' ->
  m = m' /\ rest = rest'.
Proof.
  revert m'. induction m as [|x m IH]; intros [|y m'] E L; simpl in *;
    try discriminate; [now split|].
  injection E as -> E. injection L as L.
  destruct (IH m' E L) as [-> ->]. now split.
Qed.

Section Determinism.
Variable U : unicode.
Hypothesis tables : sound_tables U.

(** A text is an occurrence of one duration and one flag only. *)
Lemma occurrence_functional (m : text) (d d' : Z) (f f' : bool) :
  fastbot_occurrence U m d f -> fastbot_occurrence U m d' f' ->
  d = d' /\ f = f'.
Proof.
  intros H H'.
  destruct (d_pat_complete U tables m [] d f H) as (cs & r & E & Hd & Hf).
  destruct (d_pat_complete U tables m [] d' f' H') as (cs' & r' & E' & Hd' & Hf').
  rewrite E in E'. injection E' as <- <-.
  rewrite Hd in Hd'. injection Hd' as <-. split; [reflexivity|].
  destruct Hf as [[<- _]|(_ & _ & Hlt)]; [|simpl in Hlt; lia].
  destruct Hf' as [[<- _]|(_ & _ & Hlt)]; [reflexivity | simpl in Hlt; lia].
Qed.

Lemma extraction_functional (t : text) (evs evs' : series) :
  extraction (fastbot_occurrence U) t evs ->
  extraction (fastbot_occurrence U) t evs' ->
  evs = evs'.
Proof.
  intros H. revert evs'.
  induction H as [|c t evs Hno _ IH|m rest d f evs Hocc Hmax _ IH];
    intros evs' H'.
  - inversion H' as [| |m' rest' d' f' evs0 Hocc' _ _ E]; [reflexivity|].
    apply occurrence_nonempty in Hocc'. destruct m'; [simpl in Hocc'; lia|].
    discriminate E.
  - inversion H' as [|c' t' evs0 _ Hext|m' rest' d' f' evs0 Hocc' _ _ E]; subst.
    + now apply IH.
    + exfalso. exact (Hno m' rest' d' f' (eq_sym E) Hocc').
  - pose proof (occurrence_nonempty _ _ _ _ _ Hocc) as Hpos.
    inversion H' as [E|c' t' evs0 Hno' _ E|m' rest' d' f' evs0 Hocc' Hmax' Hext' E].
    + destruct m; [simpl in Hpos; lia | discriminate E].
    + exfalso. exact (Hno' m rest d f E Hocc).
    + assert (Hlen : List.length m = List.length m').
      { apply Nat.le_antisymm.
        - exact (Hmax' m rest d f E Hocc).
        - exact (Hmax m' rest' d' f' (eq_sym E) Hocc'). }
      destruct (app_same_length _ _ _ _ (eq_sym E) Hlen) as [<- <-].
      destruct (occurrence_functional m d d' f f' Hocc Hocc') as [<- <-].
      f_equal. now apply IH.
Qed.
End Determinism.

Lemma ascii_tables_sound : sound_tables ascii_tables.
Proof.
  split; [|repeat split].
  intros x. simpl.
  destruct ((48 <=? x) && (x <=? 57))%N eqn:Ed; [|reflexivity].
  apply andb_true_iff in Ed. destruct Ed as [H1 H2].
  apply N.leb_le in H1, H2. intros Hs. exfalso.
  apply orb_true_iff in Hs.
  destruct Hs as [Hs|Hs]; apply andb_true_iff in Hs; destruct Hs as [H3 H4];
    apply N.leb_le in H3, H4; lia.
Qed.




Lemma main_exit_status_witness :
  run ascii_tables (world_of Missing (Readable []))
  = ([EvExists "fastbot1.log";
      EvPrint stderr (Message "Missing fastbot1.log")], 1)
  /\ run ascii_tables (world_of (Readable []) Missing)
     = ([EvExists "fastbot1.log"; EvExists "fastbot2.log";
         EvPrint stderr (Message "Missing fastbot2.log")], 2)
  /\ snd (run ascii_tables
            (world_of (Readable (lit "[Fastbot]: // dumpBinary: 120 ms"))
                      (Readable (lit "[Fastbot]: // dumpBinary: 90 ms"))))
     = 0.
Proof.
  split; [|split].
  - apply (proj1 (main_exit_status ascii_tables _)). reflexivity.
  - apply (proj1 (proj2 (main_exit_status ascii_tables _)));
      [discriminate | reflexivity].
  - apply (proj2 (proj2 (main_exit_status ascii_tables _)));
      [discriminate | discriminate | vm_compute; reflexivity].
Defined.

(** ** Concrete runs *)

Example parse_log_scenario :
  parse_log ascii_tables
    (lit "[Fastbot]: // dumpBinary: 120 ms" ++ [10%N]
     ++ lit "[Fastbot]: // dumpBinary: 340 ms (buffer full or fail)" ++ [10%N])
  = Ret [(120, false); (340, true)].
Proof. vm_compute. reflexivity. Qed.

Example stats_scenario :
  exists st,
    stats [(120, false); (340, true)] name1 = Ret (Some st)
    /\ s_n st = 2 /\ s_min st = 120 /\ s_max st = 340
    /\ (s_mean st == 230)%Q /\ s_fails st = 1 /\ (s_fail_rate st == 50)%Q.
Proof.
  eexists. split; [vm_compute; reflexivity|]. simpl.
  repeat split; reflexivity.
Qed.

(** Both logs present is not enough for status 0: when the first
    series has mean 0 the comparison divides by it, and the run ends
    with an uncaught exception and status 1. *)
Example run_zero_mean :
  let w := world_of (Readable (lit "[Fastbot]: // dumpBinary: 0 ms"))
                    (Readable (lit "[Fastbot]: // dumpBinary: 7 ms")) in
  completes ascii_tables w = false
  /\ snd (run ascii_tables w) = 1
  /\ last (fst (run ascii_tables w)) (EvExists "")
     = EvPrint stderr (Traceback ZeroDivisionError).
Proof. vm_compute. repeat split; reflexivity. Qed.

(* ================================================================== *)
(** * Further properties *)
(* ================================================================== *)

(** ** percentile: end points, exact ranks, the median, bad ranks *)

Lemma sorted_le_strongly (s : list Z) : Sorted Z.le s -> StronglySorted Z.le s.
Proof.
  apply Sorted_StronglySorted. intros x y z Hxy Hyz. lia.
Qed.









Lemma py_int_negative (a : Z) :
  a < 0 -> py_int (inject_Z a / 100) = - (- a / 100).
Proof.
  intros Ha. unfold py_int.
  assert (Hneg : (inject_Z a / 100 < 0)%Q).
  { apply Qlt_shift_div_r; [reflexivity|]. rewrite Qmult_0_l.
    change 0%Q with (inject_Z 0). rewrite <- Zlt_Qlt. exact Ha. }
  destruct (Qle_bool 0 (inject_Z a / 100)) eqn:E.
  - apply Qle_bool_iff in E. exfalso. exact (Qlt_not_le _ _ Hneg E).
  - unfold Qceiling. f_equal.
    assert (Eq : (- (inject_Z a / 100) == inject_Z (- a) / inject_Z 100)%Q).
    { rewrite inject_Z_opp. change (inject_Z 100) with 100%Q. field. }
    rewrite (Qfloor_comp _ _ Eq). symmetry. apply Zdiv_Qdiv.
Qed.



(** ** stats: the mean, the failure rate, the order of the events *)

Lemma sum_between (l : list Z) (lo hi : Z) :
  (forall x, In x l -> lo <= x <= hi) ->
  len l * lo <= sum l <= len l * hi.
Proof.
  induction l as [|x l IH]; intros H.
  - change (sum []) with 0. change (len (@nil Z)) with 0. lia.
  - rewrite sum_cons, len_cons.
    pose proof (H x (or_introl eq_refl)).
    pose proof (IH (fun y Hy => H y (or_intror Hy))). lia.
Qed.

Lemma Qdiv_between (a n lo hi : Z) :
  0 < n -> n * lo <= a <= n * hi ->
  (inject_Z lo <= inject_Z a / inject_Z n)%Q
  /\ (inject_Z a / inject_Z n <= inject_Z hi)%Q.
Proof.
  intros Hn [Hlo Hhi].
  assert (Hq : (0 < inject_Z n)%Q)
    by (change 0%Q with (inject_Z 0); now rewrite <- Zlt_Qlt).
  split.
  - apply Qle_shift_div_l; [exact Hq|].
    rewrite <- inject_Z_mult, <- Zle_Qle. lia.
  - apply Qle_shift_div_r; [exact Hq|].
    rewrite <- inject_Z_mult, <- Zle_Qle. lia.
Qed.






Lemma strongly_sorted_perm_eq (a b : list Z) :
  StronglySorted Z.le a -> StronglySorted Z.le b -> Permutation a b -> a = b.
Proof.
  intros Ha. revert b. induction Ha as [|x a Ha IH Hx]; intros b Hb Hp.
  - apply Permutation_nil in Hp. now subst.
  - destruct Hb as [|y b Hb Hy].
    + apply Permutation_sym, Permutation_nil in Hp. discriminate.
    + rewrite Forall_forall in Hx, Hy.
      assert (Exy : x = y).
      { assert (Hxin : In x (y :: b))
          by (apply (Permutation_in _ Hp); now left).
        assert (Hyin : In y (x :: a))
          by (apply (Permutation_in _ (Permutation_sym Hp)); now left).
        destruct Hxin as [->|Hxin]; [reflexivity|].
        destruct Hyin as [->|Hyin]; [reflexivity|].
        pose proof (Hx y Hyin). pose proof (Hy x Hxin). lia. }
      subst y. f_equal. apply IH; [exact Hb|].
      now apply Permutation_cons_inv in Hp.
Qed.

Lemma sorted_perm (l l' : list Z) : Permutation l l' -> sorted l = sorted l'.
Proof.
  intros Hp. apply strongly_sorted_perm_eq; try apply sorted_strongly.
  eapply Permutation_trans; [apply Permutation_sym, ZSort.Permuted_sort|].
  eapply Permutation_trans; [exact Hp | apply ZSort.Permuted_sort].
Qed.

Lemma sum_perm (l l' : list Z) : Permutation l l' -> sum l = sum l'.
Proof.
  induction 1 as [|x l l' _ IH|x y l|l l' l'' _ IH1 _ IH2].
  - reflexivity.
  - rewrite !sum_cons. lia.
  - rewrite !sum_cons. lia.
  - congruence.
Qed.

Lemma filter_perm {A} (f : A -> bool) (l l' : list A) :
  Permutation l l' -> Permutation (filter f l) (filter f l').
Proof.
  induction 1 as [|x l l' _ IH|x y l|l l' l'' _ IH1 _ IH2]; simpl.
  - constructor.
  - destruct (f x); [now constructor | exact IH].
  - destruct (f x), (f y); try apply Permutation_refl. apply perm_swap.
  - eapply Permutation_trans; eassumption.
Qed.

Lemma py_min_perm (l l' : list Z) : Permutation l l' -> py_min l = py_min l'.
Proof.
  intros Hp. destruct l as [|x xs], l' as [|y ys].
  - reflexivity.
  - apply Permutation_nil in Hp. discriminate.
  - apply Permutation_sym, Permutation_nil in Hp. discriminate.
  - simpl. f_equal.
    destruct (fold_min_spec xs x) as [Hin Hlo].
    destruct (fold_min_spec ys y) as [Hin' Hlo'].
    apply Z.le_antisymm.
    + apply Hlo. apply (Permutation_in _ (Permutation_sym Hp)), Hin'.
    + apply Hlo'. apply (Permutation_in _ Hp), Hin.
Qed.

Lemma py_max_perm (l l' : list Z) : Permutation l l' -> py_max l = py_max l'.
Proof.
  intros Hp. destruct l as [|x xs], l' as [|y ys].
  - reflexivity.
  - apply Permutation_nil in Hp. discriminate.
  - apply Permutation_sym, Permutation_nil in Hp. discriminate.
  - simpl. f_equal.
    destruct (fold_max_spec xs x) as [Hin Hhi].
    destruct (fold_max_spec ys y) as [Hin' Hhi'].
    apply Z.le_antisymm.
    + apply Hhi'. apply (Permutation_in _ Hp), Hin.
    + apply Hhi. apply (Permutation_in _ (Permutation_sym Hp)), Hin'.
Qed.

(** X9.  [stats] does not depend on the order of the events: two
    series with the same events in any order get the same record. *)
Theorem stats_order_independent (data data' : series) (name : string)
    (Hperm : Permutation data data') :
  stats data name = stats data' name.
Proof.
  destruct data as [|e data].
  - apply Permutation_nil in Hperm. now subst.
  - destruct data' as [|e' data'].
    + apply Permutation_sym, Permutation_nil in Hperm. discriminate.
    + set (d := e :: data) in *. set (d' := e' :: data') in *.
      destruct (stats_nonempty d name ltac:(discriminate))
        as (mn & mx & Hmn & Hmx & ->).
      destruct (stats_nonempty d' name ltac:(discriminate))
        as (mn' & mx' & Hmn' & Hmx' & ->).
      pose proof (Permutation_map fst Hperm) as Hms.
      rewrite (py_min_perm _ _ Hms), Hmn' in Hmn. injection Hmn as <-.
      rewrite (py_max_perm _ _ Hms), Hmx' in Hmx. injection Hmx as <-.
      assert (Hlen : len d = len d')
        by (unfold len; now rewrite (Permutation_length Hperm)).
      assert (Hfl : len (filter snd d) = len (filter snd d'))
        by (unfold len; now rewrite (Permutation_length (filter_perm snd _ _ Hperm))).
      now rewrite (sorted_perm _ _ Hms), (sum_perm _ _ Hms), Hlen, Hfl.
Qed.

Lemma stats_order_independent_witness :
  stats [(120, false); (340, true); (95, false)] name1
  = stats [(95, false); (120, false); (340, true)] name1.
Proof.
  apply stats_order_independent.
  apply (Permutation_cons_app [(95, false)] [(340, true)] (120, false)).
  apply (Permutation_cons_app [(95, false)] [] (340, true)).
  apply Permutation_refl.
Defined.

(** ** segment_avgs: degenerate requests, balance, ordinals, totals *)

(** X10.  On a non-empty series a request for 0 segments raises
    ZeroDivisionError, and a request for a negative number of segments
    returns no segment. *)
Theorem segment_avgs_no_segments (data : series) (num_segments : Z)
    (Hne : data <> []) (Hk : num_segments <= 0) :
  segment_avgs data num_segments
  = if num_segments =? 0 then Exn ZeroDivisionError else Ret [].
Proof.
  unfold segment_avgs. destruct data as [|e data]; [congruence|].
  destruct (Z.eqb_spec num_segments 0) as [->|Hk0]; [reflexivity|].
  rewrite truediv_nonzero by exact Hk0. cbn [bind].
  unfold range. replace (Z.to_nat num_segments) with 0%nat by lia.
  reflexivity.
Qed.

Lemma segment_avgs_no_segments_witness :
  segment_avgs [(5, false); (9, true)] (-3)
  = if -3 =? 0 then Exn ZeroDivisionError else Ret [].
Proof.
  apply (segment_avgs_no_segments [(5, false); (9, true)] (-3));
    [discriminate | lia].
Defined.

Lemma boundary_step_balanced (n k i : Z) :
  1 <= k ->
  n / k <= boundary n k (i + 1) - boundary n k i <= n / k + 1
  /\ (n mod k = 0 -> boundary n k (i + 1) - boundary n k i = n / k).
Proof.
  intros Hk. unfold boundary.
  pose proof (Z.div_mod n k ltac:(lia)) as Hn.
  pose proof (Z.mod_pos_bound n k ltac:(lia)) as Hr.
  set (q := n / k) in *. set (r := n mod k) in *.
  assert (E1 : i * n = i * r + (i * q) * k) by lia.
  assert (E2 : (i + 1) * n = (i * r + r) + ((i + 1) * q) * k) by lia.
  rewrite E1, E2, !Z.div_add by lia.
  assert (Hlo : i * r / k <= (i * r + r) / k) by (apply Z.div_le_mono; lia).
  assert (Hhi : (i * r + r) / k <= (i * r + 1 * k) / k)
    by (apply Z.div_le_mono; lia).
  rewrite Z.div_add in Hhi by lia.
  split; [lia|]. intros Hr0. rewrite Hr0, Z.add_0_r in *. lia.
Qed.



Lemma tiles_snoc (a b : Z) (segs : list Segment) (sg : Segment) :
  tiles a segs b -> seg_start sg = b + 1 -> seg_count sg = seg_end sg - b ->
  1 <= seg_count sg ->
  tiles a (segs ++ [sg]) (seg_end sg).
Proof.
  revert a. induction segs as [|s0 segs IH]; intros a Ht Hs Hc H1; simpl in *.
  - subst b. auto.
  - destruct Ht as (H0 & Hc0 & H10 & Ht). auto.
Qed.

Lemma emitted_tiles (data : series) (k : Z) (m : nat) :
  1 <= k ->
  tiles 0 (emitted data k (range (Z.of_nat m)))
        (boundary (len data) k (Z.of_nat m)).
Proof.
  intros Hk. pose proof (len_nonneg data) as Hn.
  induction m as [|m IH].
  - simpl. now rewrite boundary_0.
  - rewrite Nat2Z.inj_succ, <- Z.add_1_r, emitted_succ by lia.
    destruct (emitted_at data k (Z.of_nat m)) as [sg|] eqn:E.
    + destruct (emitted_at_Some _ _ _ _ E) as (Hlt & _ & Hst & Hen & Hct).
      simpl opt_list. rewrite <- Hen.
      apply (tiles_snoc _ _ _ _ IH); lia.
    + apply emitted_at_None in E. simpl opt_list. rewrite app_nil_r.
      pose proof (boundary_mono (len data) k Hn Hk (Z.of_nat m) (Z.of_nat m + 1)
                    ltac:(lia)).
      replace (boundary (len data) k (Z.of_nat m + 1))
        with (boundary (len data) k (Z.of_nat m)) by lia.
      exact IH.
Qed.



Lemma slice_map {A B} (f : A -> B) (l : list A) (a b : Z) :
  slice (map f l) a b = map f (slice l a b).
Proof.
  unfold slice. replace (len (map f l)) with (len l)
    by (unfold len; now rewrite length_map).
  now rewrite <- firstn_map, <- skipn_map.
Qed.

Lemma sum_bool_int (l : series) :
  sum (map bool_int (map snd l)) = len (filter snd l).
Proof.
  induction l as [|[d f] l IH]; [reflexivity|].
  simpl map. rewrite sum_cons, IH. simpl filter.
  destruct f; simpl bool_int; [rewrite len_cons|]; lia.
Qed.

(** The figures of an emitted record, over its slice of the series. *)
Lemma emitted_at_figures (data : series) (k i : Z) (sg : Segment) :
  1 <= k -> 0 <= i < k -> emitted_at data k i = Some sg ->
  let evs := events_of data sg in
  evs <> []
  /\ seg_count sg = len evs
  /\ seg_avg sg = (inject_Z (sum (map fst evs)) / inject_Z (len evs))%Q
  /\ seg_fail_count sg = len (filter snd evs)
  /\ seg_fail_rate sg
     = (100 * inject_Z (len (filter snd evs)) / inject_Z (len evs))%Q.
Proof.
  intros Hk Hi E evs. pose proof (len_nonneg data) as Hn.
  destruct (emitted_at_Some _ _ _ _ E) as (Hlt & _ & Hst & Hen & Hct).
  pose proof (boundary_nonneg (len data) k Hn Hk i ltac:(lia)) as H0.
  pose proof (boundary_le_n (len data) k Hn Hk (i + 1) ltac:(lia)) as Hle.
  assert (Hevs : evs = slice data (boundary (len data) k i)
                         (boundary (len data) k (i + 1))).
  { unfold evs, events_of. rewrite Hst, Hen. f_equal. lia. }
  assert (Hlen : len evs = boundary (len data) k (i + 1) - boundary (len data) k i)
    by (rewrite Hevs; apply slice_length; lia).
  split; [|split; [lia|]].
  - intros Enil. rewrite Enil in Hlen. change (len (@nil event)) with 0 in Hlen. lia.
  - clearbody evs. clear Hst Hen Hct. revert E. unfold emitted_at.
    destruct (Z.geb_spec (boundary (len data) k i) (boundary (len data) k (i + 1)));
      [discriminate|].
    intros [= <-]. cbn [seg_avg seg_fail_count seg_fail_rate].
    rewrite !slice_map. unfold series, event in *. rewrite <- Hevs.
    rewrite (sum_bool_int evs), <- Hlen. auto.
Qed.



Lemma emitted_concat (data : series) (k : Z) :
  1 <= k -> data <> [] ->
  concat (map (events_of data) (emitted data k (range k))) = data.
Proof.
  intros Hk Hne. pose proof (len_pos data Hne) as Hn.
  destruct (emitted_prefix data k (Z.to_nat k) Hk ltac:(lia)) as [Hc _].
  rewrite Z2Nat.id, boundary_last in Hc by lia.
  rewrite Hc. unfold len. rewrite Nat2Z.id. apply firstn_all.
Qed.

Lemma filter_concat_len {A} (f : A -> bool) (ls : list (list A)) :
  len (filter f (concat ls)) = sum (map (fun l => len (filter f l)) ls).
Proof.
  induction ls as [|l ls IH]; [reflexivity|].
  simpl. rewrite filter_app, len_app, sum_cons, IH. reflexivity.
Qed.

Lemma sum_concat (ls : list (list Z)) :
  sum (concat ls) = sum (map sum ls).
Proof.
  induction ls as [|l ls IH]; [reflexivity|].
  simpl. rewrite sum_app, sum_cons, IH. reflexivity.
Qed.

Lemma totals_of_records (data : series) (segs : list Segment) :
  (forall sg, In sg segs ->
     seg_fail_count sg = len (filter snd (events_of data sg))
     /\ (seg_total sg == inject_Z (sum (map fst (events_of data sg))))%Q) ->
  sum (map seg_fail_count segs)
  = len (filter snd (concat (map (events_of data) segs)))
  /\ (Qsum (map seg_total segs)
      == inject_Z (sum (map fst (concat (map (events_of data) segs)))))%Q.
Proof.
  intros Hfig. rewrite filter_concat_len, concat_map, sum_concat, !map_map.
  induction segs as [|sg segs IH]; [split; reflexivity|].
  destruct (Hfig sg (or_introl eq_refl)) as [Hf Ht].
  destruct (IH (fun s Hs => Hfig s (or_intror Hs))) as [IHf IHt].
  simpl map. rewrite !sum_cons. simpl Qsum. fold (Qsum (map seg_total segs)).
  split; [lia|]. rewrite inject_Z_plus, Ht, IHt. reflexivity.
Qed.



(** ** parse_log: what precedes, follows and bounds the events *)

(** The matcher hands its continuation a text no longer than its own. *)
Lemma many_shorter {R} (U : unicode) (c : cclass) (s : text)
    (k : text -> option R) (res : R) :
  many U c s k = Some res ->
  exists s', (List.length s' <= List.length s)%nat /\ k s' = Some res.
Proof.
  induction s as [|x s IH]; simpl.
  - intros H. exists []. auto.
  - destruct (in_class U c x).
    + destruct (many U c s k) as [r|] eqn:E.
      * intros [= ->]. destruct (IH eq_refl) as (s' & Hl & Hk).
        exists s'. split; [lia | exact Hk].
      * intros H. exists (x :: s). auto.
    + intros H. exists (x :: s). auto.
Qed.

Lemma bt_shorter {R} (U : unicode) (r : regex) :
  forall (s : text) (cs : captures) (k : text -> captures -> option R) (res : R),
    bt U r s cs k = Some res ->
    exists s' cs', (List.length s' <= List.length s)%nat /\ k s' cs' = Some res.
Proof.
  induction r as [l|c|r1 IH1 r2 IH2|g r IH|r IH]; intros s cs k res; simpl.
  - destruct (strip_prefix l s) as [s'|] eqn:E; [|discriminate].
    intros H. exists s', cs. split; [|exact H].
    apply strip_prefix_Some in E. subst s. rewrite length_app. lia.
  - destruct s as [|x s]; [discriminate|].
    destruct (in_class U c x); [|discriminate].
    intros H. apply many_shorter in H. destruct H as (s' & Hl & Hk).
    exists s', cs. split; [simpl; lia | exact Hk].
  - intros H. apply IH1 in H. destruct H as (s1 & cs1 & Hl1 & H).
    apply IH2 in H. destruct H as (s2 & cs2 & Hl2 & H).
    exists s2, cs2. split; [lia | exact H].
  - intros H. apply IH in H. destruct H as (s' & cs' & Hl & H).
    eexists s', _. split; [exact Hl | exact H].
  - destruct (bt U r s cs k) as [x|] eqn:E.
    + intros [= ->]. now apply IH in E.
    + intros H. exists s, cs. auto.
Qed.

(** A match of the pattern is never empty, whatever the tables. *)
Lemma match_at_consumes (U : unicode) (s rest : text) (cs : captures) :
  match_at U pat s = Some (cs, rest) ->
  (List.length rest < List.length s)%nat.
Proof.
  unfold match_at. change pat with (Cat (Lit (lit "[Fastbot]:")) p_sp1).
  rewrite bt_Cat, bt_Lit.
  destruct (strip_prefix (lit "[Fastbot]:") s) as [s1|] eqn:E; [|discriminate].
  apply strip_prefix_Some in E. subst s.
  intros H. apply bt_shorter in H. destruct H as (s' & cs' & Hl & H).
  unfold accept in H. injection H as _ <-.
  rewrite length_app. simpl. lia.
Qed.

Lemma search_consumes (U : unicode) (s rest : text) (cs : captures) :
  search U pat s = Some (cs, rest) ->
  (List.length rest < List.length s)%nat.
Proof.
  induction s as [|c s IH]; cbn [search].
  - destruct (match_at U pat []) as [[cs0 r0]|] eqn:E; [|discriminate].
    intros [= -> ->]. now apply match_at_consumes in E.
  - destruct (match_at U pat (c :: s)) as [[cs0 r0]|] eqn:E.
    + intros [= -> ->]. now apply match_at_consumes in E.
    + intros H. apply IH in H. simpl. lia.
Qed.

(** For the pattern, [finditer] always resumes after the match. *)
Lemma finditer_pat (U : unicode) (s : text) :
  finditer U pat s
  = match search U pat s with
    | None => []
    | Some (cs, rest) => cs :: finditer U pat rest
    end.
Proof.
  rewrite finditer_step.
  destruct (search U pat s) as [[cs rest]|] eqn:E; [|reflexivity].
  apply search_consumes in E.
  destruct (lt_dec (List.length rest) (List.length s)); [reflexivity | contradiction].
Qed.

(** No match starts at a character other than the opening bracket. *)
Lemma match_at_needs_bracket (U : unicode) (c : char) (s : text) :
  c <> 91%N -> match_at U pat (c :: s) = None.
Proof.
  intros Hc. unfold match_at.
  change pat with (Cat (Lit (91%N :: lit "Fastbot]:")) p_sp1).
  rewrite bt_Cat, bt_Lit, strip_prefix_head; [reflexivity|].
  intros E. now apply Hc.
Qed.

Lemma search_skips_junk (U : unicode) (junk t : text) :
  ~ In 91%N junk -> search U pat (junk ++ t) = search U pat t.
Proof.
  induction junk as [|c junk IH]; intros Hj; [reflexivity|].
  simpl app. cbn [search]. rewrite match_at_needs_bracket.
  - apply IH. intros H. apply Hj. now right.
  - intros ->. apply Hj. now left.
Qed.

(** X15.  Text without an opening bracket in front of a text changes
    nothing: [parse_log] gives the same result with or without it,
    whatever the Unicode tables. *)
Theorem parse_log_skips_junk (U : unicode) (junk t : text)
    (Hjunk : ~ In 91%N junk) :
  parse_log U (junk ++ t) = parse_log U t
  /\ parse_log U junk = Ret [].
Proof.
  assert (H : forall t', parse_log U (junk ++ t') = parse_log U t').
  { intros t'. unfold parse_log. f_equal.
    rewrite (finditer_pat U (junk ++ t')), (finditer_pat U t').
    now rewrite search_skips_junk. }
  split; [apply H|].
  rewrite <- (app_nil_r junk), H. unfold parse_log.
  now rewrite finditer_pat.
Qed.

Lemma parse_log_skips_junk_witness :
  parse_log ascii_tables
    (lit "12:00 starting up " ++ lit "[Fastbot]: // dumpBinary: 7 ms")
  = parse_log ascii_tables (lit "[Fastbot]: // dumpBinary: 7 ms")
  /\ parse_log ascii_tables (lit "12:00 starting up ") = Ret [].
Proof.
  apply (parse_log_skips_junk ascii_tables (lit "12:00 starting up ")).
  vm_compute. intuition discriminate.
Defined.

Lemma extraction_Forall (occ : text -> Z -> bool -> Prop) (P : event -> Prop)
    (t : text) (evs : series) :
  (forall m d f, occ m d f -> P (d, f)) ->
  extraction occ t evs -> Forall P evs.
Proof.
  intros HP. induction 1 as [|c t evs _ _ IH|m rest d f evs Hocc _ _ IH].
  - constructor.
  - exact IH.
  - constructor; [exact (HP m d f Hocc) | exact IH].
Qed.

Lemma digits_value_from_nonneg (U : unicode) (ds : text) (acc : Z) :
  decimal_digits U -> 0 <= acc -> 0 <= digits_value_from U ds acc.
Proof.
  intros Hdec. revert acc.
  induction ds as [|x ds IH]; intros acc Hacc; cbn [digits_value_from].
  - exact Hacc.
  - apply IH. destruct (decimal U x) as [v|] eqn:E; [|lia].
    pose proof (Hdec x v E). lia.
Qed.

Lemma occurrence_duration_nonneg (U : unicode) (tag m : text) (d : Z) (f : bool) :
  decimal_digits U -> occurrence U tag m d f -> 0 <= d.
Proof.
  intros Hdec [ws1 ws2 ds ws3 _ _ _ _ | ws1 ws2 ds ws3 ws4 _ _ _ _ _];
    apply digits_value_from_nonneg; auto; lia.
Qed.


Lemma ascii_decimal_digits : decimal_digits ascii_tables.
Proof.
  intros x v. simpl.
  destruct ((48 <=? x) && (x <=? 57))%N eqn:E; [|discriminate].
  apply andb_true_iff in E. destruct E as [H1 H2].
  apply N.leb_le in H1, H2. intros [= <-]. lia.
Qed.


Lemma spaces_length (U : unicode) (ws : text) :
  spaces U ws -> (1 <= List.length ws)%nat.
Proof. intros [Hne _]. destruct ws; [congruence | simpl; lia]. Qed.

Lemma digits_length (U : unicode) (ds : text) :
  digits U ds -> (1 <= List.length ds)%nat.
Proof. intros [Hne _]. destruct ds; [congruence | simpl; lia]. Qed.

(** An occurrence is at least 30 characters long. *)
Lemma occurrence_length (U : unicode) (m : text) (d : Z) (f : bool) :
  fastbot_occurrence U m d f -> (30 <= List.length m)%nat.
Proof.
  intros [ws1 ws2 ds ws3 H1 H2 Hd H3 | ws1 ws2 ds ws3 ws4 H1 H2 Hd H3 H4];
    apply spaces_length in H1, H2, H3; apply digits_length in Hd;
    rewrite !length_app; simpl; lia.
Qed.

Lemma extraction_length (U : unicode) (t : text) (evs : series) :
  extraction (fastbot_occurrence U) t evs ->
  (30 * List.length evs <= List.length t)%nat.
Proof.
  induction 1 as [|c t evs _ _ IH|m rest d f evs Hocc _ _ IH]; simpl.
  - lia.
  - lia.
  - apply occurrence_length in Hocc. rewrite length_app. lia.
Qed.



Lemma search_hit (U : unicode) (r : regex) (s : text) (x : captures * text) :
  match_at U r s = Some x -> search U r s = Some x.
Proof. intros H. destruct s; cbn [search]; now rewrite H. Qed.

(** After an occurrence without the marker the reading stops at [ms]
    when what follows, past its whitespace, is not the marker. *)
Lemma d_pat_plain (U : unicode) (tables : sound_tables U)
    (ws1 ws2 ds ws3 rest : text) :
  spaces U ws1 -> spaces U ws2 -> digits U ds -> spaces U ws3 ->
  (forall tail, drop_class U Space rest <> lit "(buffer full or fail)" ++ tail) ->
  d_pat U ((fastbot_tag ++ lit ":" ++ ws1 ++ lit "// dumpBinary:" ++ ws2 ++ ds
              ++ ws3 ++ lit "ms") ++ rest)
  = Some (set_capture 1 ds no_captures, rest).
Proof.
  intros H1 H2 Hd H3 Hrest.
  destruct tables as (Hsd & Hslash & Hm & Hparen).
  assert (tables : sound_tables U) by (repeat split; assumption).
  rewrite <- !app_assoc, tag_colon.
  unfold d_pat, d_sp1, d_dump, d_sp2, d_num, d_sp3, d_ms.
  rewrite strip_prefix_app.
  rewrite (run_of_app U Space ws1) by (try apply H1; exact Hslash).
  rewrite strip_prefix_app.
  rewrite (run_of_app U Space ws2)
    by (try apply H2; destruct Hd as [Hne Hds];
        apply (starts_outside_app U Space Digit); auto;
        apply digit_not_space; assumption).
  rewrite (run_of_app U Digit ds)
    by (try apply Hd; destruct H3 as [Hne Hws];
        apply (starts_outside_app U Digit Space); auto;
        apply space_not_digit; assumption).
  rewrite (run_of_app U Space ws3) by (try apply H3; exact Hm).
  rewrite strip_prefix_app. unfold d_tail.
  destruct (run_of U Space rest) as [[ws4 s8]|] eqn:E8; [|reflexivity].
  destruct (strip_prefix _ s8) as [s9|] eqn:E9; [|reflexivity].
  exfalso. apply strip_prefix_Some in E9.
  apply (Hrest s9). rewrite <- E9. clear E9.
  unfold run_of in E8. destruct rest as [|x rest]; [discriminate|].
  cbn [drop_class]. destruct (in_class U Space x); [|discriminate].
  injection E8 as _ <-. reflexivity.
Qed.



(** ** main: how a run with both logs present ends *)

Lemma Qdiv_zero_iff (a n : Z) :
  0 < n -> (inject_Z a / inject_Z n == 0)%Q <-> a = 0.
Proof.
  intros Hn. destruct n as [|n|n]; try lia.
  unfold Qeq, Qdiv, Qmult, Qinv, inject_Z. simpl. lia.
Qed.

Section World.
Variable w : world.

Lemma yields_ret {A} (a : A) : yields w (io_ret a) a.
Proof. intros tr. now exists tr. Qed.

Lemma yields_print (ch : channel) (l : line) : yields w (print ch l) tt.
Proof. intros tr. now eexists. Qed.

Lemma yields_lift {A} (m : res A) (a : A) : m = Ret a -> yields w (lift m) a.
Proof. intros -> tr. now exists tr. Qed.

Lemma raises_lift {A} (m : res A) (e : exn) : m = Exn e -> raises w (lift m) e.
Proof. intros -> tr. now exists tr. Qed.

Lemma yields_bind {A B} (m : io A) (f : A -> io B) (a : A) (b : B) :
  yields w m a -> yields w (f a) b -> yields w (io_bind m f) b.
Proof.
  intros Hm Hf tr. unfold io_bind.
  destruct (Hm tr) as (tr1 & ->). exact (Hf tr1).
Qed.

Lemma raises_later {A B} (m : io A) (f : A -> io B) (a : A) (e : exn) :
  yields w m a -> raises w (f a) e -> raises w (io_bind m f) e.
Proof.
  intros Hm Hf tr. unfold io_bind.
  destruct (Hm tr) as (tr1 & ->). exact (Hf tr1).
Qed.

Lemma raises_now {A B} (m : io A) (f : A -> io B) (e : exn) :
  raises w m e -> raises w (io_bind m f) e.
Proof.
  intros Hm tr. unfold io_bind. destruct (Hm tr) as (tr1 & ->). now exists tr1.
Qed.

Lemma yields_for_each {A} (xs : list A) (body : A -> io unit) :
  (forall x, In x xs -> yields w (body x) tt) -> yields w (for_each xs body) tt.
Proof.
  induction xs as [|x xs IH]; intros H; simpl.
  - apply yields_ret.
  - eapply yields_bind; [apply H; now left|].
    apply IH. intros y Hy. apply H. now right.
Qed.

Lemma yields_path_exists (path : string) :
  yields w (path_exists path)
         (match w path with Missing => false | _ => true end).
Proof. intros tr. now eexists. Qed.

Lemma yields_read_text (path : string) (t : text) :
  w path = Readable t -> yields w (read_text path) t.
Proof. intros H tr. unfold read_text. rewrite H. now eexists. Qed.

Lemma raises_read_text (path : string) :
  w path = Unreadable -> raises w (read_text path) OSError.
Proof. intros H tr. unfold read_text. rewrite H. now eexists. Qed.

Lemma yields_print_stats (o : option SummaryStats) : yields w (print_stats o) tt.
Proof.
  destruct o as [st|]; [|apply yields_ret]. unfold print_stats.
  repeat (eapply yields_bind; [apply yields_print|]). apply yields_print.
Qed.

Lemma segment_avgs_returns (data : series) (k : Z) :
  1 <= k -> exists segs, segment_avgs data k = Ret segs.
Proof. intros Hk. rewrite segment_avgs_emitted by exact Hk. now eexists. Qed.

Lemma yields_print_segments (nd : string * series) :
  yields w (print_segments nd) tt.
Proof.
  unfold print_segments.
  destruct (segment_avgs_returns (snd nd) 4 ltac:(lia)) as (segs & E).
  eapply yields_bind; [apply yields_print|].
  eapply yields_bind; [apply yields_lift, E|].
  eapply yields_bind; [|apply yields_print].
  apply yields_for_each. intros seg _. apply yields_print.
Qed.

Lemma yields_print_trend (nd : string * series) :
  yields w (print_trend nd) tt.
Proof.
  unfold print_trend.
  destruct (segment_avgs_returns (snd nd) 10 ltac:(lia)) as (segs & E).
  eapply yields_bind; [apply yields_print|].
  eapply yields_bind; [apply yields_lift, E|].
  eapply yields_bind; [apply yields_print | apply yields_print].
Qed.

(** The comparison goes through unless it divides by a zero mean. *)
Lemma print_comparison_outcome (d1 d2 : series) (o1 o2 : option SummaryStats) :
  stats d1 name1 = Ret o1 -> stats d2 name2 = Ret o2 ->
  if zero_mean_crash d1 d2
  then raises w (print_comparison o1 o2) ZeroDivisionError
  else yields w (print_comparison o1 o2) tt.
Proof.
  intros E1 E2. destruct d1 as [|e1 d1].
  { injection E1 as <-. simpl. apply yields_ret. }
  destruct d2 as [|e2 d2].
  { injection E2 as <-.
    destruct (stats_nonempty (e1 :: d1) name1 ltac:(discriminate))
      as (mn & mx & _ & _ & E). rewrite E in E1. injection E1 as <-.
    simpl. apply yields_ret. }
  destruct (stats_nonempty (e1 :: d1) name1 ltac:(discriminate))
    as (mn & mx & _ & _ & E). rewrite E in E1. injection E1 as <-.
  destruct (stats_nonempty (e2 :: d2) name2 ltac:(discriminate))
    as (mn' & mx' & _ & _ & E'). rewrite E' in E2. injection E2 as <-.
  unfold zero_mean_crash, print_comparison. cbn [s_mean s_n s_max s_p99 s_fail_rate].
  set (m1 := (inject_Z (sum (map fst (e1 :: d1))) / inject_Z (len (e1 :: d1)))%Q).
  pose proof (len_pos (e1 :: d1) ltac:(discriminate)) as Hn.
  assert (Hzero : (m1 == 0)%Q <-> sum (map fst (e1 :: d1)) = 0)
    by (apply Qdiv_zero_iff; exact Hn).
  destruct (Z.eqb_spec (sum (map fst (e1 :: d1))) 0) as [Hs|Hs].
  - assert (Ht : forall x, truediv x m1 = Exn ZeroDivisionError).
    { intros x. unfold truediv.
      destruct (Qeq_bool m1 0) eqn:Eb; [reflexivity|].
      apply Qeq_bool_neq in Eb. exfalso. apply Eb. now apply Hzero. }
    eapply raises_later; [apply yields_print|].
    apply raises_now, raises_lift. apply Ht.
  - assert (Ht : forall x, truediv x m1 = Ret (x / m1)%Q).
    { intros x. unfold truediv.
      destruct (Qeq_bool m1 0) eqn:Eb; [|reflexivity].
      apply Qeq_bool_iff in Eb. exfalso. apply Hs. now apply Hzero. }
    eapply yields_bind; [apply yields_print|].
    eapply yields_bind; [apply yields_lift, Ht|].
    repeat (eapply yields_bind; [apply yields_print|]). apply yields_print.
Qed.
End World.

Lemma ends_bind {A B} (w : world) (m : io A) (f : A -> io B) (a : A)
    (crash : bool) (b : B) :
  yields w m a -> ends w (f a) crash b -> ends w (io_bind m f) crash b.
Proof.
  unfold ends. destruct crash; [apply raises_later | apply yields_bind].
Qed.

Lemma stats_returns (data : series) (name : string) :
  exists r, stats data name = Ret r.
Proof.
  destruct data as [|e data]; [now exists None|].
  destruct (stats_nonempty (e :: data) name ltac:(discriminate))
    as (mn & mx & _ & _ & ->). now eexists.
Qed.

Lemma parse_log_returns (U : unicode) (t : text) :
  sound_tables U -> exists evs, parse_log U t = Ret evs.
Proof.
  intros tables. destruct (finditer_extraction U tables t) as (evs & Hrec & _).
  exists evs. unfold parse_log. now rewrite (parse_loop_records U _ evs []).
Qed.

(** With both logs read and parsed, [main] returns 0 unless the
    comparison divides by a zero mean. *)
Lemma main_readable (U : unicode) (w : world) (t1 t2 : text) (d1 d2 : series) :
  w "fastbot1.log"%string = Readable t1 ->
  w "fastbot2.log"%string = Readable t2 ->
  parse_log U t1 = Ret d1 -> parse_log U t2 = Ret d2 ->
  ends w (main U) (zero_mean_crash d1 d2) 0.
Proof.
  intros H1 H2 Hd1 Hd2.
  destruct (stats_returns d1 name1) as (o1 & E1).
  destruct (stats_returns d2 name2) as (o2 & E2).
  pose proof (print_comparison_outcome w d1 d2 o1 o2 E1 E2) as Hc.
  unfold main. cbv zeta.
  eapply ends_bind; [apply yields_path_exists|]. rewrite H1. cbn [negb].
  eapply ends_bind; [apply yields_path_exists|]. rewrite H2. cbn [negb].
  eapply ends_bind; [apply (yields_read_text w _ t1 H1)|].
  eapply ends_bind; [apply yields_lift, Hd1|].
  eapply ends_bind; [apply (yields_read_text w _ t2 H2)|].
  eapply ends_bind; [apply yields_lift, Hd2|].
  eapply ends_bind; [apply yields_lift, E1|].
  eapply ends_bind; [apply yields_lift, E2|].
  do 6 (eapply ends_bind; [apply yields_print|]).
  eapply ends_bind;
    [apply yields_for_each; intros; apply yields_print_stats|].
  do 3 (eapply ends_bind; [apply yields_print|]).
  unfold ends. destruct (zero_mean_crash d1 d2).
  - apply raises_now, Hc.
  - eapply yields_bind; [exact Hc|].
    do 3 (eapply yields_bind; [apply yields_print|]).
    eapply yields_bind;
      [apply yields_for_each; intros; apply yields_print_segments|].
    do 2 (eapply yields_bind; [apply yields_print|]).
    eapply yields_bind;
      [apply yields_for_each; intros; apply yields_print_trend|].
    apply yields_ret.
Qed.





(** ** main: the order of its effects *)

Section Trace.
Variable w : world.

Lemma grows_ret {A} (a : A) : grows w (io_ret a).
Proof. intros tr. exists []. simpl. now rewrite app_nil_r. Qed.

Lemma grows_print (ch : channel) (l : line) : grows w (print ch l).
Proof. intros tr. now eexists. Qed.

Lemma grows_lift {A} (m : res A) : grows w (lift m).
Proof.
  intros tr. exists []. unfold lift. rewrite app_nil_r. now destruct m.
Qed.

Lemma grows_bind {A B} (m : io A) (f : A -> io B) :
  grows w m -> (forall a, grows w (f a)) -> grows w (io_bind m f).
Proof.
  intros Hm Hf tr. unfold io_bind. destruct (Hm tr) as (ext1 & E1).
  destruct (m w tr) as [tr1 [a|c|e]]; simpl in E1; subst tr1.
  - destruct (Hf a (tr ++ ext1)) as (ext2 & E2).
    exists (ext1 ++ ext2). now rewrite E2, app_assoc.
  - now exists ext1.
  - now exists ext1.
Qed.

Lemma grows_for_each {A} (xs : list A) (body : A -> io unit) :
  (forall x, grows w (body x)) -> grows w (for_each xs body).
Proof.
  intros H. induction xs as [|x xs IH]; simpl.
  - apply grows_ret.
  - apply grows_bind; [apply H | intros _; exact IH].
Qed.

Ltac grows_chain :=
  repeat first
    [ apply grows_print | apply grows_ret | apply grows_lift
    | apply grows_for_each; intros
    | apply grows_bind; [|intros] ].

Lemma grows_print_stats (o : option SummaryStats) : grows w (print_stats o).
Proof. destruct o; unfold print_stats; grows_chain. Qed.

Lemma grows_print_comparison (o1 o2 : option SummaryStats) :
  grows w (print_comparison o1 o2).
Proof. destruct o1, o2; unfold print_comparison; grows_chain. Qed.

Lemma grows_print_segments (nd : string * series) : grows w (print_segments nd).
Proof. unfold print_segments. grows_chain. Qed.

Lemma grows_print_trend (nd : string * series) : grows w (print_trend nd).
Proof. unfold print_trend. grows_chain. Qed.

Lemma starts_grows {A} (m : io A) : grows w m -> starts w m [].
Proof. intros H tr. destruct (H tr) as (ext & E). now exists ext. Qed.

Lemma starts_bind {A B} (m : io A) (f : A -> io B) (evs pre : list effect) (a : A) :
  emits w m evs a -> starts w (f a) pre -> starts w (io_bind m f) (evs ++ pre).
Proof.
  intros Hm Hf tr. unfold io_bind. rewrite (Hm tr).
  destruct (Hf (tr ++ evs)) as (ext & E). exists ext.
  now rewrite E, <- !app_assoc.
Qed.

Lemma emits_path_exists (path : string) :
  emits w (path_exists path) [EvExists path]
        (match w path with Missing => false | _ => true end).
Proof. intros tr. reflexivity. Qed.

Lemma emits_read_text (path : string) (t : text) :
  w path = Readable t -> emits w (read_text path) [EvReadText path] t.
Proof. intros H tr. unfold read_text. now rewrite H. Qed.

Lemma emits_lift {A} (m : res A) (a : A) : m = Ret a -> emits w (lift m) [] a.
Proof. intros -> tr. unfold lift. now rewrite app_nil_r. Qed.

(** Once both logs are read and parsed, whatever [main] does comes
    after the two existence checks and the two reads. *)
Lemma main_starts (U : unicode) (t1 t2 : text) (d1 d2 : series) :
  w "fastbot1.log"%string = Readable t1 ->
  w "fastbot2.log"%string = Readable t2 ->
  parse_log U t1 = Ret d1 -> parse_log U t2 = Ret d2 ->
  starts w (main U)
    [EvExists "fastbot1.log"; EvExists "fastbot2.log";
     EvReadText "fastbot1.log"; EvReadText "fastbot2.log"].
Proof.
  intros H1 H2 Hd1 Hd2. unfold main. cbv zeta.
  apply (starts_bind _ _ [EvExists "fastbot1.log"]
           [EvExists "fastbot2.log"; EvReadText "fastbot1.log";
            EvReadText "fastbot2.log"] _ (emits_path_exists _)).
  rewrite H1. cbn [negb].
  apply (starts_bind _ _ [EvExists "fastbot2.log"]
           [EvReadText "fastbot1.log"; EvReadText "fastbot2.log"]
           _ (emits_path_exists _)).
  rewrite H2. cbn [negb].
  apply (starts_bind _ _ [EvReadText "fastbot1.log"]
           [EvReadText "fastbot2.log"] _ (emits_read_text _ t1 H1)).
  apply (starts_bind _ _ [] [EvReadText "fastbot2.log"] _ (emits_lift _ d1 Hd1)).
  apply (starts_bind _ _ [EvReadText "fastbot2.log"] [] _ (emits_read_text _ t2 H2)).
  apply (starts_bind _ _ [] [] _ (emits_lift _ d2 Hd2)).
  apply starts_grows.
  repeat first
    [ apply grows_print | apply grows_ret | apply grows_lift
    | apply grows_print_comparison
    | apply grows_for_each; intros;
      first [apply grows_print_stats | apply grows_print_segments
            | apply grows_print_trend]
    | apply grows_bind; [|intros] ].
Qed.
End Trace.

Ltac run_trace :=
  unfold run, main, io_bind, path_exists, read_text, lift, print, emit, sys_exit.

Ltac silence :=
  let l := fresh "l" in let H := fresh "H" in
  intros l H; simpl in H;
  repeat (destruct H as [H|H]; [discriminate H|]); exact H.

(** X21.  Standard output is written only after both logs were found
    to exist and were read: the trace of any run either shows nothing
    on standard output, or begins with the two existence checks
    followed by the two reads. *)
Theorem report_after_reads (U : unicode) (w : world) :
  silent (fst (run U w))
  \/ exists rest,
       fst (run U w)
       = [EvExists "fastbot1.log"; EvExists "fastbot2.log";
          EvReadText "fastbot1.log"; EvReadText "fastbot2.log"] ++ rest.
Proof.
  destruct (w "fastbot1.log"%string) as [| |t1] eqn:H1.
  - left. run_trace. rewrite H1. silence.
  - left. run_trace. rewrite H1. cbn [negb].
    destruct (w "fastbot2.log"%string) eqn:H2; cbn [negb];
      try rewrite H1; silence.
  - destruct (w "fastbot2.log"%string) as [| |t2] eqn:H2.
    + left. run_trace. rewrite H1. cbn [negb]. rewrite H2. silence.
    + destruct (parse_log U t1) as [d1|e] eqn:Hd1.
      * right. run_trace. rewrite H1. cbn [negb]. rewrite H2. cbn [negb].
        rewrite H1, Hd1, H2. now eexists.
      * left. run_trace. rewrite H1. cbn [negb]. rewrite H2. cbn [negb].
        rewrite H1, Hd1. silence.
    + destruct (parse_log U t1) as [d1|e] eqn:Hd1.
      * destruct (parse_log U t2) as [d2|e] eqn:Hd2.
        -- right.
           destruct (main_starts w U t1 t2 d1 d2 H1 H2 Hd1 Hd2 []) as (ext & E).
           unfold run. destruct (main U w []) as [tr [code|code|e]];
             simpl in E; subst tr; simpl; eauto.
        -- right. run_trace. rewrite H1. cbn [negb]. rewrite H2. cbn [negb].
           rewrite H1, Hd1, H2, Hd2. now eexists.
      * left. run_trace. rewrite H1. cbn [negb]. rewrite H2. cbn [negb].
        rewrite H1, Hd1. silence.
Qed.

(** ** segment_avgs: how many segments *)

Lemma sum_at_least_len (l : list Z) :
  (forall x, In x l -> 1 <= x) -> len l <= sum l.
Proof.
  intros H.
  induction l as [|x l IH]; [reflexivity|].
  rewrite sum_cons, len_cons.
  pose proof (H x (or_introl eq_refl)).
  pose proof (IH (fun y Hy => H y (or_intror Hy))). lia.
Qed.


